(** * Membership resolvers of the event check-in backend

    A shallow embedding of the GraphQL resolvers of the server
    ([events], [me], [joinEvent], [leaveEvent] of the [resolvers]
    object in [backend/src/seed.ts], after the seeding script) over a
    relational store with the shape of the Prisma schema (tables
    [User], [Event] and the implicit join table of the [UserEvents]
    relation), together with the Socket.io emissions the mutations
    perform.

    Strings are byte strings.  The only string operations of the
    resolvers ([includes], [split] on the character '@', the removal of
    everything outside [a-zA-Z0-9], comparison with [===]) give the same
    answer on UTF-8 bytes as on UTF-16 code units, since every unit of a
    non-ASCII character lies outside the ASCII range in both encodings. *)

From Stdlib Require Import ZArith Ascii String.
From stdpp Require Import base strings gmap sets list sorting.

Open Scope string_scope.
Open Scope list_scope.
Open Scope Z_scope.

(** ** Data model ([types.ts] and the Prisma schema) *)

Record User := mkUser {
  user_id : string;
  user_name : string;
  user_email : string
}.

(** An [Event] as the resolvers see it: the row together with the
    attendees that [include: { attendees: true }] attaches.
    [startTime] is a [DateTime], kept as milliseconds since the epoch. *)
Record Event := mkEvent {
  event_id : string;
  event_name : string;
  event_location : string;
  event_startTime : Z;
  event_attendees : list User
}.

(** A row of the [Event] table (no relation fields). *)
Record EventRow := mkEventRow {
  row_id : string;
  row_name : string;
  row_location : string;
  row_startTime : Z
}.

(** The database: both tables in insertion order, and the join table
    of the many-to-many relation as a set of (event id, user id). *)
Record Store := mkStore {
  userTable : list User;
  eventTable : list EventRow;
  userEvents : gset (string * string)
}.

(** [JoinEventPayload] and the object literal sent with [eventUpdated]. *)
Inductive Payload :=
  | JoinEventPayload (eventId : string) (user : User) (attendees : list User)
  | EventUpdatedPayload (eventId : string) (attendees : list User).

(** [io.to(room).emit(name, payload)] and [io.emit(name, payload)]. *)
Inductive Emission :=
  | ToRoom (room : string) (name : string) (payload : Payload)
  | ToAll (name : string) (payload : Payload).

(** What a resolver can observe and change: the database and the
    messages handed to Socket.io so far (oldest first). *)
Record World := mkWorld {
  db : Store;
  emitted : list Emission
}.

#[global] Instance User_eq_dec : EqDecision User.
Proof. solve_decision. Defined.
#[global] Instance Event_eq_dec : EqDecision Event.
Proof. solve_decision. Defined.
#[global] Instance EventRow_eq_dec : EqDecision EventRow.
Proof. solve_decision. Defined.
#[global] Instance Payload_eq_dec : EqDecision Payload.
Proof. solve_decision. Defined.
#[global] Instance Emission_eq_dec : EqDecision Emission.
Proof. solve_decision. Defined.

(** ** JavaScript string helpers used by the resolvers *)

(** [!s] for a string [s]: only the empty string is falsy. *)
Definition falsy (s : string) : bool := bool_decide (s = "").

(** [s.includes(c)] for a one-character needle. *)
Fixpoint includes (c : ascii) (s : string) : bool :=
  match s with
  | EmptyString => false
  | String d s' => if decide (d = c) then true else includes c s'
  end.

(** [s.split(sep)] for a one-character separator; never empty. *)
Fixpoint split (sep : ascii) (s : string) : list string :=
  match s with
  | EmptyString => [EmptyString]
  | String d s' =>
      if decide (d = sep) then EmptyString :: split sep s'
      else match split sep s' with
           | [] => [String d EmptyString]
           | p :: ps => String d p :: ps
           end
  end.

(** [parts[0]] on the result of [split]. *)
Definition first_part (parts : list string) : string :=
  match parts with
  | [] => ""
  | p :: _ => p
  end.

(** The character class [a-zA-Z0-9]. *)
Definition is_alnum (c : ascii) : bool :=
  let n := N_of_ascii c in
  ((97 <=? n) && (n <=? 122) || (65 <=? n) && (n <=? 90)
   || (48 <=? n) && (n <=? 57))%N.

(** [s.replace(/[^a-zA-Z0-9]/g, '')]. *)
Fixpoint strip_non_alnum (s : string) : string :=
  match s with
  | EmptyString => EmptyString
  | String d s' =>
      if is_alnum d then String d (strip_non_alnum s') else strip_non_alnum s'
  end.

(** [a || b] on strings. *)
Definition or_else (a b : string) : string := if falsy a then b else a.

(** ** Resolver computations

    A resolver runs against the world and either returns or throws an
    [Error] with a message.  There is no transaction around a resolver:
    whatever was written before a throw stays written, so the world is
    threaded through both outcomes. *)

Inductive Outcome (A : Type) :=
  | Returned (a : A)
  | Thrown (message : string).
Arguments Returned {A} a.
Arguments Thrown {A} message.

Definition Resolver (A : Type) : Type := World → Outcome A * World.

#[global] Instance resolver_ret : MRet Resolver :=
  λ A a w, (Returned a, w).

#[global] Instance resolver_bind : MBind Resolver :=
  λ A B k m w,
    match m w with
    | (Returned a, w') => k a w'
    | (Thrown msg, w') => (Thrown msg, w')
    end.

Definition throw {A} (message : string) : Resolver A :=
  λ w, (Thrown message, w).

(** [try { body } catch (error) { handler }]. *)
Definition try_catch {A} (body : Resolver A) (handler : string → Resolver A)
  : Resolver A :=
  λ w,
    match body w with
    | (Returned a, w') => (Returned a, w')
    | (Thrown msg, w') => handler msg w'
    end.

(** ** The Prisma client, restricted to the calls the resolvers make *)

Definition find_row (id : string) (rows : list EventRow) : option EventRow :=
  List.find (λ r, bool_decide (row_id r = id)) rows.

Definition find_user_by_email (email : string) (us : list User) : option User :=
  List.find (λ u, bool_decide (user_email u = email)) us.

Definition find_user_by_id (id : string) (us : list User) : option User :=
  List.find (λ u, bool_decide (user_id u = id)) us.

(** The users related to event [eid], in table order.  Equalities
    between such lists below hold a fortiori between the sets of their
    elements. *)
Definition attendees_of (s : Store) (eid : string) : list User :=
  filter (λ u, (eid, user_id u) ∈ userEvents s) (userTable s).

(** [include: { attendees: true }]. *)
Definition include_attendees (s : Store) (r : EventRow) : Event :=
  {| event_id := row_id r;
     event_name := row_name r;
     event_location := row_location r;
     event_startTime := row_startTime r;
     event_attendees := attendees_of s (row_id r) |}.

Definition set_db (s : Store) (w : World) : World :=
  {| db := s; emitted := emitted w |}.

(** Row insertion into [User], and insertion into and deletion from
    the join table. *)
Definition insert_user (u : User) (s : Store) : Store :=
  {| userTable := userTable s ++ [u];
     eventTable := eventTable s;
     userEvents := userEvents s |}.

Definition connect (eid uid : string) (s : Store) : Store :=
  {| userTable := userTable s;
     eventTable := eventTable s;
     userEvents := {[ (eid, uid) ]} ∪ userEvents s |}.

Definition disconnect (eid uid : string) (s : Store) : Store :=
  {| userTable := userTable s;
     eventTable := eventTable s;
     userEvents := userEvents s ∖ {[ (eid, uid) ]} |}.

(** Some attendee of event [eid] has the address [email]: the test
    [attendees.some(attendee => attendee.email === userEmail)]. *)
Definition attending (s : Store) (eid email : string) : Prop :=
  Exists (λ attendee, user_email attendee = email) (attendees_of s eid).

#[global] Instance attending_dec s eid email : Decision (attending s eid email).
Proof. unfold attending. apply _. Defined.

(** The foreign keys of the join table: every pair relates an
    existing event to an existing user. *)
Definition referential (s : Store) : Prop :=
  ∀ eid uid, (eid, uid) ∈ userEvents s →
    eid ∈ (row_id <$> eventTable s) ∧ uid ∈ (user_id <$> userTable s).

Definition startTime_le (a b : Event) : Prop :=
  event_startTime a ≤ event_startTime b.

#[global] Instance startTime_le_dec : RelDecision startTime_le.
Proof. intros a b. unfold startTime_le. apply _. Defined.

#[global] Instance startTime_le_total : Total startTime_le.
Proof. intros a b. unfold startTime_le. lia. Qed.

#[global] Instance startTime_le_trans : Transitive startTime_le.
Proof. intros a b c. unfold startTime_le. lia. Qed.

Section Resolvers.

(** [@default(cuid())]: the id given to a new row, from the ids
    already in the table.  Which id comes out is left open; where a
    property needs it to be new, it assumes [generates_fresh]. *)
Variable cuid : list string → string.

(** [prisma.event.findMany({ include, orderBy: { startTime: 'asc' } })]. *)
Definition prisma_event_findMany : Resolver (list Event) :=
  λ w,
    (Returned (merge_sort startTime_le
                 (include_attendees (db w) <$> eventTable (db w))), w).

(** [prisma.event.findUnique({ where: { id }, include })]. *)
Definition prisma_event_findUnique (id : string) : Resolver (option Event) :=
  λ w,
    (Returned (include_attendees (db w) <$> find_row id (eventTable (db w))), w).

(** [prisma.user.findUnique({ where: { email } })]. *)
Definition prisma_user_findUnique (email : string) : Resolver (option User) :=
  λ w, (Returned (find_user_by_email email (userTable (db w))), w).

(** [prisma.user.create({ data: { email, name } })]; [email] is
    [@unique]. *)
Definition prisma_user_create (email name : string) : Resolver User :=
  λ w,
    match find_user_by_email email (userTable (db w)) with
    | Some _ => (Thrown "Unique constraint failed on the fields: (`email`)", w)
    | None =>
        let u := {| user_id := cuid (user_id <$> userTable (db w));
                    user_name := name;
                    user_email := email |} in
        (Returned u, set_db (insert_user u (db w)) w)
    end.

(** [prisma.event.update({ where: { id }, data: { attendees:
    { connect: { id: uid } } }, include })]. *)
Definition prisma_event_update_connect (id uid : string) : Resolver Event :=
  λ w,
    match find_row id (eventTable (db w)),
          find_user_by_id uid (userTable (db w)) with
    | Some r, Some _ =>
        let s' := connect id uid (db w) in
        (Returned (include_attendees s' r), set_db s' w)
    | _, _ => (Thrown "Record to update not found.", w)
    end.

(** The same call with [disconnect]; disconnecting a user who is
    not connected changes nothing. *)
Definition prisma_event_update_disconnect (id uid : string) : Resolver Event :=
  λ w,
    match find_row id (eventTable (db w)) with
    | Some r =>
        let s' := disconnect id uid (db w) in
        (Returned (include_attendees s' r), set_db s' w)
    | None => (Thrown "Record to update not found.", w)
    end.

(** ** Socket.io *)

Definition io_to_emit (room name : string) (p : Payload) : Resolver unit :=
  λ w, (Returned tt,
        {| db := db w; emitted := emitted w ++ [ToRoom room name p] |}).

Definition io_emit (name : string) (p : Payload) : Resolver unit :=
  λ w, (Returned tt,
        {| db := db w; emitted := emitted w ++ [ToAll name p] |}).

(** ** The resolvers

    [console.log] and [console.error] are not modelled.  A [catch]
    block that logs and rethrows is [try_catch _ throw]. *)

Definition events : Resolver (list Event) :=
  try_catch
    (events ← prisma_event_findMany;
     mret events)
    (λ _, throw "Failed to fetch events").

Definition me (email : string) : Resolver User :=
  try_catch
    (if falsy email || negb (includes "@"%char email) then
       throw "Valid email is required"
     else
       found ← prisma_user_findUnique email;
       user ← match found with
              | None =>
                  prisma_user_create email
                    (or_else (strip_non_alnum (first_part (split "@"%char email)))
                             "User")
              | Some user => mret user
              end;
       mret user)
    throw.

Definition joinEvent (eventId userEmail : string) : Resolver Event :=
  try_catch
    (if falsy eventId || falsy userEmail then
       throw "Event ID and user email are required"
     else
       existingEvent ← prisma_event_findUnique eventId;
       match existingEvent with
       | None => throw "Event not found"
       | Some existingEvent =>
           found ← prisma_user_findUnique userEmail;
           user ← match found with
                  | None =>
                      prisma_user_create userEmail
                        (first_part (split "@"%char userEmail))
                  | Some user => mret user
                  end;
           let isAlreadyJoined :=
             existsb (λ attendee, bool_decide (user_email attendee = userEmail))
                     (event_attendees existingEvent) in
           if isAlreadyJoined then mret existingEvent
           else
             event ← prisma_event_update_connect eventId (user_id user);
             let payload :=
               JoinEventPayload eventId user (event_attendees event) in
             _ ← io_to_emit ("event-" +:+ eventId) "userJoined" payload;
             _ ← io_emit "eventUpdated"
                   (EventUpdatedPayload eventId (event_attendees event));
             mret event
       end)
    throw.

Definition leaveEvent (eventId userEmail : string) : Resolver Event :=
  try_catch
    (if falsy eventId || falsy userEmail then
       throw "Event ID and user email are required"
     else
       existingEvent ← prisma_event_findUnique eventId;
       match existingEvent with
       | None => throw "Event not found"
       | Some existingEvent =>
           found ← prisma_user_findUnique userEmail;
           match found with
           | None => throw "User not found"
           | Some user =>
               let isInEvent :=
                 existsb (λ attendee, bool_decide (user_email attendee = userEmail))
                         (event_attendees existingEvent) in
               if negb isInEvent then mret existingEvent
               else
                 event ← prisma_event_update_disconnect eventId (user_id user);
                 let payload :=
                   JoinEventPayload eventId user (event_attendees event) in
                 _ ← io_to_emit ("event-" +:+ eventId) "userLeft" payload;
                 _ ← io_emit "eventUpdated"
                       (EventUpdatedPayload eventId (event_attendees event));
                 mret event
           end
       end)
    throw.

End Resolvers.

(** The guards that [joinEvent] and [leaveEvent] share, in the order
    the code runs them: input validation, event lookup, user lookup. *)
Inductive Route (s : Store) (eid email : string) : Prop :=
  | MissingInput :
      eid = "" ∨ email = "" → Route s eid email
  | NoEvent :
      eid ≠ "" → email ≠ "" →
      find_row eid (eventTable s) = None → Route s eid email
  | KnownUser (r : EventRow) (u : User) :
      eid ≠ "" → email ≠ "" →
      find_row eid (eventTable s) = Some r →
      find_user_by_email email (userTable s) = Some u → Route s eid email
  | UnknownUser (r : EventRow) :
      eid ≠ "" → email ≠ "" →
      find_row eid (eventTable s) = Some r →
      find_user_by_email email (userTable s) = None → Route s eid email.

(** What is asked of [cuid()]: an id that no row of the table has. *)
Definition generates_fresh (cuid : list string → string) : Prop :=
  ∀ ids, cuid ids ∉ ids.

(** The two messages of a membership change, in emission order. *)
Definition membership_messages (name eid : string) (u : User)
    (atts : list User) : list Emission :=
  [ToRoom ("event-" +:+ eid) name (JoinEventPayload eid u atts);
   ToAll "eventUpdated" (EventUpdatedPayload eid atts)].

(** Rearrangements of three elements. *)
Ltac perm3 :=
  solve [ reflexivity
        | apply Permutation_swap
        | apply Permutation_skip, Permutation_swap
        | (etransitivity; [apply Permutation_skip, Permutation_swap|];
           apply Permutation_swap)
        | (etransitivity; [apply Permutation_swap|];
           apply Permutation_skip, Permutation_swap)
        | (etransitivity; [apply Permutation_swap|];
           etransitivity; [apply Permutation_skip, Permutation_swap|];
           apply Permutation_swap) ].

Ltac run_resolver :=
  unfold joinEvent, leaveEvent, me, events, try_catch, throw,
    prisma_event_findMany, prisma_event_findUnique, prisma_user_findUnique,
    prisma_user_create, prisma_event_update_connect,
    prisma_event_update_disconnect, io_to_emit, io_emit, set_db,
    mbind, resolver_bind, mret, resolver_ret; simpl.

(** ** The seeded database of [seed.ts]

    Three users and three events; Alice and Bob attend the first
    event, Alice the second, nobody the third. *)

Definition alice : User := mkUser "cu1" "Alice Johnson" "alice@example.com".
Definition bob : User := mkUser "cu2" "Bob Smith" "bob@example.com".
Definition charlie : User := mkUser "cu3" "Charlie Brown" "charlie@example.com".

Definition techMeetup : EventRow :=
  mkEventRow "ce1" "Tech Meetup" "Downtown Hall" 1734717600000.
Definition musicFestival : EventRow :=
  mkEventRow "ce2" "Music Festival" "City Park" 1734879600000.
Definition foodFair : EventRow :=
  mkEventRow "ce3" "Food Fair" "Main Street" 1735128000000.

Definition seeded : Store :=
  {| userTable := [alice; bob; charlie];
     eventTable := [techMeetup; musicFestival; foodFair];
     userEvents := {[ ("ce1", "cu1"); ("ce1", "cu2"); ("ce2", "cu1") ]} |}.

Definition seeded_world : World := {| db := seeded; emitted := [] |}.

(** An id generator to run the resolvers with: the new id is longer
    than every id of the table, hence different from each. *)
Fixpoint longer_cuid (ids : list string) : string :=
  match ids with
  | [] => "c"
  | id :: ids' => id +:+ longer_cuid ids'
  end.

(** The row that [joinEvent] creates for the address a@x.com in the seeded
    database under [longer_cuid]. *)
Definition newcomer : User := mkUser "cu1cu2cu3c" "a" "a@x.com".

(** ** The constraints of the schema

    [@id] on [User.id] and [Event.id], [@unique] on [User.email], and
    the foreign keys of the join table. *)
Record store_ok (s : Store) : Prop := mk_store_ok {
  ok_user_ids : NoDup (user_id <$> userTable s);
  ok_emails : NoDup (user_email <$> userTable s);
  ok_event_ids : NoDup (row_id <$> eventTable s);
  ok_refs : referential s
}.

(** ** The seeding script ([seed] of [backend/src/seed.ts]) *)

(** [await Promise.all(promises)] on Prisma calls.  The calls are
    independent requests to the database, which executes them, each
    atomically, in an order of its own: [order] lists the indices of
    the array in the order of execution.  [settle] runs them so and
    records each result under its index. *)
Fixpoint settle {A} (promises : list (Resolver A)) (order : list nat)
  : Resolver (list (nat * A)) :=
  match order with
  | [] => mret []
  | i :: later =>
      match promises !! i with
      | Some p => a ← p; settled ← settle promises later; mret ((i, a) :: settled)
      | None => settle promises later
      end
  end.

Definition result_at {A} (settled : list (nat * A)) (i : nat) : option A :=
  snd <$> List.find (λ ia, bool_decide (ia.1 = i)) settled.

(** The value of [Promise.all] is the array of the results, in array
    order whatever the order of execution.  A rejection is the outcome
    of the whole; what the other calls then still do is not modelled,
    and [seed] does not come to it. *)
Definition promise_all {A} (order : list nat) (promises : list (Resolver A))
  : Resolver (list A) :=
  settled ← settle promises order;
  mret (omap (result_at settled) (seq 0 (length promises))).

(** [users[i].id]; reading [id] off [undefined] is a [TypeError]. *)
Definition id_at (users : list User) (i : nat) : Resolver string :=
  match users !! i with
  | Some u => mret (user_id u)
  | None =>
      throw "TypeError: Cannot read properties of undefined (reading 'id')"
  end.

Section Seed.

(** The ids drawn for new users and for new events: two generators,
    one per [@default(cuid())]. *)
Variable cuid : list string → string.
Variable event_cuid : list string → string.

(** The orders in which the database executes the three user
    creations and the three event creations. *)
Variable user_order : list nat.
Variable event_order : list nat.

(** [prisma.event.deleteMany({})]: every event row goes, and with it
    (the join table cascades) every membership; returns the count. *)
Definition prisma_event_deleteMany : Resolver nat :=
  λ w,
    (Returned (length (eventTable (db w))),
     set_db {| userTable := userTable (db w);
               eventTable := [];
               userEvents := ∅ |} w).

(** [prisma.user.deleteMany({})]. *)
Definition prisma_user_deleteMany : Resolver nat :=
  λ w,
    (Returned (length (userTable (db w))),
     set_db {| userTable := [];
               eventTable := eventTable (db w);
               userEvents := ∅ |} w).

(** [prisma.event.create({ data: { name, location, startTime,
    attendees: { connect: [{ id }, ...] } } })]; without [include] the
    result is the bare row.  Every user to connect must exist. *)
Definition prisma_event_create (name location : string) (startTime : Z)
    (connects : list string) : Resolver EventRow :=
  λ w,
    if forallb (λ uid, bool_decide
                         (is_Some (find_user_by_id uid (userTable (db w)))))
               connects
    then
      let r := {| row_id := event_cuid (row_id <$> eventTable (db w));
                  row_name := name;
                  row_location := location;
                  row_startTime := startTime |} in
      (Returned r,
       set_db {| userTable := userTable (db w);
                 eventTable := eventTable (db w) ++ [r];
                 userEvents :=
                   list_to_set ((λ uid, (row_id r, uid)) <$> connects)
                   ∪ userEvents (db w) |} w)
    else
      (Thrown "An operation failed because it depends on one or more records that were required but not found.",
       w).

Definition seed : Resolver unit :=
  _ ← prisma_event_deleteMany;
  _ ← prisma_user_deleteMany;
  users ← promise_all user_order
    [prisma_user_create cuid "alice@example.com" "Alice Johnson";
     prisma_user_create cuid "bob@example.com" "Bob Smith";
     prisma_user_create cuid "charlie@example.com" "Charlie Brown"];
  events ← promise_all event_order
    [(u0 ← id_at users 0; u1 ← id_at users 1;
      prisma_event_create "Tech Meetup" "Downtown Hall" 1734717600000 [u0; u1]);
     (u0 ← id_at users 0;
      prisma_event_create "Music Festival" "City Park" 1734879600000 [u0]);
     prisma_event_create "Food Fair" "Main Street" 1735128000000 []];
  mret tt.

End Seed.

(** ** Socket.io rooms ([io.on('connection', ...)] in [start]) *)

(** The connected sockets, each with the rooms it is in. *)
Abbreviation Connections := (gmap string (gset string)).

(** A socket that connects is in the room named by its own id. *)
Definition on_connection (sid : string) (conns : Connections) : Connections :=
  <[sid := {[ sid ]}]> conns.

(** [socket.on('joinEventRoom', eventId => socket.join(`event-${eventId}`))]. *)
Definition on_joinEventRoom (sid eventId : string) (conns : Connections)
  : Connections :=
  alter (λ rooms, {[ "event-" +:+ eventId ]} ∪ rooms) sid conns.

(** [socket.on('leaveEventRoom', eventId => socket.leave(`event-${eventId}`))]. *)
Definition on_leaveEventRoom (sid eventId : string) (conns : Connections)
  : Connections :=
  alter (λ rooms, rooms ∖ {[ "event-" +:+ eventId ]}) sid conns.

(** [socket.on('disconnect', ...)]: the socket is gone from every room. *)
Definition on_disconnect (sid : string) (conns : Connections) : Connections :=
  delete sid conns.

(** Whether socket [sid] is handed emission [e]: [io.to(room)] reaches
    the sockets in the room, [io.emit] every connected socket. *)
Definition receives (conns : Connections) (sid : string) (e : Emission) : bool :=
  match conns !! sid with
  | None => false
  | Some rooms =>
      match e with
      | ToRoom room _ _ => bool_decide (room ∈ rooms)
      | ToAll _ _ => true
      end
  end.

(** What a socket is handed out of a run of emissions, in order. *)
Definition inbox (conns : Connections) (sid : string) (es : list Emission)
  : list Emission :=
  List.filter (receives conns sid) es.

(** ** The client: login store, and the event detail screen *)

(** The zustand store of [store.ts]. *)
Record AppState := mkAppState {
  userEmail : string;
  userName : string;
  isLoggedIn : bool
}.

Definition initial_state : AppState :=
  {| userEmail := ""; userName := ""; isLoggedIn := false |}.

Definition login (email name : string) (st : AppState) : AppState :=
  {| userEmail := email; userName := name; isLoggedIn := true |}.

Definition logout (st : AppState) : AppState :=
  {| userEmail := ""; userName := ""; isLoggedIn := false |}.

(** [handleLogin] of [LoginScreen], on the two text fields. *)
Definition handleLogin (email name : string) (st : AppState) : AppState :=
  if negb (falsy email) && negb (falsy name) then login email name st else st.

(** What the user can do to the store: press Login with some text in
    the fields, or press Logout. *)
Inductive Press :=
  | PressLogin (email name : string)
  | PressLogout.

Definition press (st : AppState) (p : Press) : AppState :=
  match p with
  | PressLogin email name => handleLogin email name st
  | PressLogout => logout st
  end.

(** [isJoined] of both screens:
    [userEmail ? attendees.some(a => a?.email === userEmail) : false]. *)
Definition isJoined (email : string) (attendees : list User) : bool :=
  if falsy email then false
  else existsb (λ attendee, bool_decide (user_email attendee = email)) attendees.

(** The state of [EventDetailScreen]: the event on display, and the
    alerts raised so far (title, message). *)
Record DetailScreen := mkDetailScreen {
  shown : Event;
  alerts : list (string * string)
}.

(** [setEvent(prev => ({ ...prev, attendees }))]. *)
Definition set_attendees (attendees : list User) (scr : DetailScreen)
  : DetailScreen :=
  {| shown := {| event_id := event_id (shown scr);
                 event_name := event_name (shown scr);
                 event_location := event_location (shown scr);
                 event_startTime := event_startTime (shown scr);
                 event_attendees := attendees |};
     alerts := alerts scr |}.

(** [Alert.alert(title, message)]. *)
Definition alert (title message : string) (scr : DetailScreen) : DetailScreen :=
  {| shown := shown scr; alerts := alerts scr ++ [(title, message)] |}.

(** A mutation of the screen: the request is the resolver run on the
    server's world; [onSuccess] takes the attendees of the answer,
    [onError] raises an alert. *)
Definition mutate (request : Resolver Event) (failure : string)
    (scr : DetailScreen) : World → DetailScreen * World :=
  λ w,
    match request w with
    | (Returned data, w') => (set_attendees (event_attendees data) scr, w')
    | (Thrown _, w') => (alert "Error" failure scr, w')
    end.

Section DetailScreenHandlers.

Variable cuid : list string → string.

Definition handleJoinEvent (email : string) (scr : DetailScreen)
  : World → DetailScreen * World :=
  λ w,
    if falsy email then (alert "Error" "User email not found" scr, w)
    else mutate (joinEvent cuid (event_id (shown scr)) email)
           "Failed to join event. Please try again." scr w.

Definition handleLeaveEvent (email : string) (scr : DetailScreen)
  : World → DetailScreen * World :=
  λ w,
    if falsy email then (alert "Error" "User email not found" scr, w)
    else mutate (leaveEvent (event_id (shown scr)) email)
           "Failed to leave event. Please try again." scr w.

End DetailScreenHandlers.

(** The objects the server emits, as the client receives them: the
    [JoinEventPayload] literal [{ eventId, user, attendees }] and the
    literal [{ eventId, attendees }] sent with [eventUpdated]. *)
Inductive JSValue :=
  | JSUndefined
  | JSString (s : string)
  | JSUser (u : User)
  | JSUsers (us : list User).

Definition payload_object (p : Payload) : list (string * JSValue) :=
  match p with
  | JoinEventPayload eventId user attendees =>
      [("eventId", JSString eventId); ("user", JSUser user);
       ("attendees", JSUsers attendees)]
  | EventUpdatedPayload eventId attendees =>
      [("eventId", JSString eventId); ("attendees", JSUsers attendees)]
  end.

(** [object.key]: [undefined] when the object has no such property. *)
Fixpoint get_property (key : string) (object : list (string * JSValue))
  : JSValue :=
  match object with
  | [] => JSUndefined
  | (k, v) :: rest => if decide (k = key) then v else get_property key rest
  end.

(** [value === s] for a string [s]. *)
Definition strict_equals_string (value : JSValue) (s : string) : bool :=
  match value with
  | JSString t => bool_decide (t = s)
  | _ => false
  end.

(** The [eventUpdated] listener of [EventDetailScreen]:
    [if (updatedEvent.id === event.id) setEvent(updatedEvent)].  The
    result is the object handed to [setEvent], if the call is made. *)
Definition on_eventUpdated (updatedEvent : list (string * JSValue))
    (scr : DetailScreen) : option (list (string * JSValue)) :=
  if strict_equals_string (get_property "id" updatedEvent)
                          (event_id (shown scr))
  then Some updatedEvent
  else None.

(** * Properties *)

(** ** String helpers *)

Lemma falsy_false s : s ≠ "" → falsy s = false.
Proof. intros Hs. unfold falsy. by apply bool_decide_eq_false. Qed.

Lemma includes_append c a b :
  includes c (a +:+ b) = includes c a || includes c b.
Proof.
  induction a as [|d a IH]; simpl; [done|].
  destruct (decide (d = c)); [done|]. apply IH.
Qed.

(** The first element of [split] is the text before the first
    separator. *)
Lemma first_part_split sep a b :
  includes sep a = false →
  first_part (split sep (a +:+ String sep b)) = a.
Proof.
  induction a as [|d a IH]; simpl.
  - intros _. by destruct (decide (sep = sep)).
  - destruct (decide (d = sep)); [done|]. intros Ha.
    specialize (IH Ha).
    destruct (split sep (a +:+ String sep b)) as [|p ps]; simpl in *; by subst.
Qed.

Lemma first_part_split_whole sep a :
  includes sep a = false → first_part (split sep a) = a.
Proof.
  induction a as [|d a IH]; simpl; [done|].
  destruct (decide (d = sep)); [done|]. intros Ha.
  specialize (IH Ha).
  destruct (split sep a) as [|p ps]; simpl in *; by subst.
Qed.

(** A string with the separator in it decomposes around its first
    occurrence. *)
Lemma includes_decompose sep s :
  includes sep s = true →
  ∃ a b, s = a +:+ String sep b ∧ includes sep a = false.
Proof.
  induction s as [|d s IH]; simpl; [done|].
  destruct (decide (d = sep)) as [->|Hd].
  - intros _. by exists "", s.
  - intros Hs. destruct (IH Hs) as (a & b & -> & Ha).
    exists (String d a), b. simpl. by destruct (decide (d = sep)).
Qed.

(** ** Table lookups *)

Lemma find_row_Some id rows r :
  find_row id rows = Some r → r ∈ rows ∧ row_id r = id.
Proof.
  unfold find_row. intros [Hin Hb]%find_some.
  split; [by apply list_elem_of_In | by apply bool_decide_eq_true in Hb].
Qed.

Lemma find_user_by_email_Some email us u :
  find_user_by_email email us = Some u → u ∈ us ∧ user_email u = email.
Proof.
  unfold find_user_by_email. intros [Hin Hb]%find_some.
  split; [by apply list_elem_of_In | by apply bool_decide_eq_true in Hb].
Qed.

Lemma find_user_by_email_None email us :
  find_user_by_email email us = None ↔ ∀ u, u ∈ us → user_email u ≠ email.
Proof.
  unfold find_user_by_email. split.
  - intros Hn u Hu%list_elem_of_In.
    by apply (find_none _ _ Hn), bool_decide_eq_false in Hu.
  - intros Hall. induction us as [|v us IH]; simpl; [done|].
    rewrite bool_decide_eq_false_2 by (apply Hall; left).
    apply IH. intros u Hu. apply Hall. by right.
Qed.

Lemma find_user_by_email_app_new email us u :
  find_user_by_email email us = None → user_email u = email →
  find_user_by_email email (us ++ [u]) = Some u.
Proof.
  unfold find_user_by_email. intros Hn He.
  induction us as [|v us IH]; simpl in *.
  - by rewrite bool_decide_eq_true_2.
  - destruct (bool_decide (user_email v = email)); [done|]. by apply IH.
Qed.

Lemma find_user_by_id_is_Some us u :
  u ∈ us → is_Some (find_user_by_id (user_id u) us).
Proof.
  unfold find_user_by_id. induction 1 as [u us|u v us _ IH]; simpl.
  - rewrite bool_decide_eq_true_2 by done. by eexists.
  - destruct (bool_decide (user_id v = user_id u)); [by eexists | done].
Qed.

(** ** Attendee lists *)

Lemma elem_of_attendees_of s eid u :
  u ∈ attendees_of s eid ↔ u ∈ userTable s ∧ (eid, user_id u) ∈ userEvents s.
Proof. unfold attendees_of. rewrite list_elem_of_filter. tauto. Qed.

Lemma some_attendee_email s eid email :
  existsb (λ attendee, bool_decide (user_email attendee = email))
          (attendees_of s eid) = true ↔ attending s eid email.
Proof.
  rewrite existsb_exists. unfold attending. rewrite Exists_exists. split.
  - intros (u & Hu%list_elem_of_In & He%bool_decide_eq_true). eauto.
  - intros (u & Hu%list_elem_of_In & He). exists u.
    by rewrite bool_decide_eq_true.
Qed.

Lemma some_attendee_email_false s eid email :
  existsb (λ attendee, bool_decide (user_email attendee = email))
          (attendees_of s eid) = false ↔ ¬ attending s eid email.
Proof.
  rewrite <- some_attendee_email. by destruct (existsb _ _).
Qed.

Lemma attending_user_exists s eid email :
  attending s eid email → is_Some (find_user_by_email email (userTable s)).
Proof.
  intros (u & [Hu _]%elem_of_attendees_of & He)%Exists_exists.
  destruct (find_user_by_email email (userTable s)) eqn:E; [by eexists|].
  rewrite find_user_by_email_None in E. by destruct (E u Hu).
Qed.

Lemma attendees_of_connect s eid uid eid' :
  eid' ≠ eid → attendees_of (connect eid uid s) eid' = attendees_of s eid'.
Proof.
  intros Hne. unfold attendees_of, connect; simpl.
  apply list_filter_iff. intros u. set_solver.
Qed.

Lemma attendees_of_disconnect s eid uid eid' :
  eid' ≠ eid → attendees_of (disconnect eid uid s) eid' = attendees_of s eid'.
Proof.
  intros Hne. unfold attendees_of, disconnect; simpl.
  apply list_filter_iff. intros u. set_solver.
Qed.

Lemma disconnect_connect s eid uid :
  (eid, uid) ∉ userEvents s → disconnect eid uid (connect eid uid s) = s.
Proof.
  intros Hn. destruct s as [us es ue]. unfold disconnect, connect; simpl in *.
  f_equal. set_solver.
Qed.

(** ** Path by path: what each mutation does *)

Section Mutations.

Variable cuid : list string → string.

Lemma joinEvent_invalid eid email w :
  eid = "" ∨ email = "" →
  joinEvent cuid eid email w
  = (Thrown "Event ID and user email are required", w).
Proof.
  intros H. run_resolver.
  assert (falsy eid || falsy email = true) as ->; [|done].
  destruct H as [->| ->]; [done|]. by rewrite orb_true_r.
Qed.

Lemma joinEvent_not_found eid email w :
  eid ≠ "" → email ≠ "" → find_row eid (eventTable (db w)) = None →
  joinEvent cuid eid email w = (Thrown "Event not found", w).
Proof.
  intros He Hm Hr. run_resolver.
  rewrite (falsy_false _ He), (falsy_false _ Hm); simpl.
  by rewrite Hr.
Qed.

Lemma joinEvent_member eid email w r :
  eid ≠ "" → email ≠ "" → find_row eid (eventTable (db w)) = Some r →
  attending (db w) eid email →
  joinEvent cuid eid email w = (Returned (include_attendees (db w) r), w).
Proof.
  intros He Hm Hr Ha. run_resolver.
  rewrite (falsy_false _ He), (falsy_false _ Hm); simpl.
  rewrite Hr; simpl.
  destruct (attending_user_exists _ _ _ Ha) as [u ->].
  destruct (find_row_Some _ _ _ Hr) as [_ ->].
  apply some_attendee_email in Ha. by rewrite Ha.
Qed.

Lemma joinEvent_known_user eid email w r u :
  eid ≠ "" → email ≠ "" → find_row eid (eventTable (db w)) = Some r →
  find_user_by_email email (userTable (db w)) = Some u →
  ¬ attending (db w) eid email →
  let s' := connect eid (user_id u) (db w) in
  joinEvent cuid eid email w
  = (Returned (include_attendees s' r),
     {| db := s';
        emitted := emitted w ++
          membership_messages "userJoined" eid u (attendees_of s' eid) |}).
Proof.
  intros He Hm Hr Hu Ha. run_resolver.
  rewrite (falsy_false _ He), (falsy_false _ Hm); simpl.
  rewrite Hr; simpl. rewrite Hu; simpl.
  destruct (find_row_Some _ _ _ Hr) as [_ Hid]. rewrite Hid.
  apply some_attendee_email_false in Ha. rewrite Ha, Hr.
  destruct (find_user_by_email_Some _ _ _ Hu) as [Hin _].
  destruct (find_user_by_id_is_Some _ _ Hin) as [v ->]. simpl.
  rewrite Hid, <- app_assoc. done.
Qed.

Lemma joinEvent_new_user eid email w r :
  eid ≠ "" → email ≠ "" → find_row eid (eventTable (db w)) = Some r →
  find_user_by_email email (userTable (db w)) = None →
  let u := {| user_id := cuid (user_id <$> userTable (db w));
              user_name := first_part (split "@" email);
              user_email := email |} in
  let s' := connect eid (user_id u) (insert_user u (db w)) in
  joinEvent cuid eid email w
  = (Returned (include_attendees s' r),
     {| db := s';
        emitted := emitted w ++
          membership_messages "userJoined" eid u (attendees_of s' eid) |}).
Proof.
  intros He Hm Hr Hu. run_resolver.
  rewrite (falsy_false _ He), (falsy_false _ Hm); simpl.
  rewrite Hr; simpl. rewrite Hu; simpl.
  destruct (find_row_Some _ _ _ Hr) as [_ Hid]. rewrite Hid.
  assert (¬ attending (db w) eid email) as Ha.
  { intros [v Hv]%attending_user_exists. congruence. }
  apply some_attendee_email_false in Ha. rewrite Ha, Hu; simpl.
  rewrite Hr.
  set (u := {| user_id := cuid (user_id <$> userTable (db w));
               user_name := first_part (split "@" email);
               user_email := email |}).
  assert (u ∈ userTable (db w) ++ [u]) as Hin by set_solver.
  destruct (find_user_by_id_is_Some _ _ Hin) as [v Hv].
  simpl in Hv. rewrite Hv. simpl.
  rewrite Hid, <- app_assoc. done.
Qed.

Lemma leaveEvent_invalid eid email w :
  eid = "" ∨ email = "" →
  leaveEvent eid email w
  = (Thrown "Event ID and user email are required", w).
Proof.
  intros H. run_resolver.
  assert (falsy eid || falsy email = true) as ->; [|done].
  destruct H as [->| ->]; [done|]. by rewrite orb_true_r.
Qed.

Lemma leaveEvent_not_found eid email w :
  eid ≠ "" → email ≠ "" → find_row eid (eventTable (db w)) = None →
  leaveEvent eid email w = (Thrown "Event not found", w).
Proof.
  intros He Hm Hr. run_resolver.
  rewrite (falsy_false _ He), (falsy_false _ Hm); simpl.
  by rewrite Hr.
Qed.

Lemma leaveEvent_user_not_found eid email w r :
  eid ≠ "" → email ≠ "" → find_row eid (eventTable (db w)) = Some r →
  find_user_by_email email (userTable (db w)) = None →
  leaveEvent eid email w = (Thrown "User not found", w).
Proof.
  intros He Hm Hr Hu. run_resolver.
  rewrite (falsy_false _ He), (falsy_false _ Hm); simpl.
  rewrite Hr; simpl. by rewrite Hu.
Qed.

Lemma leaveEvent_not_member eid email w r u :
  eid ≠ "" → email ≠ "" → find_row eid (eventTable (db w)) = Some r →
  find_user_by_email email (userTable (db w)) = Some u →
  ¬ attending (db w) eid email →
  leaveEvent eid email w = (Returned (include_attendees (db w) r), w).
Proof.
  intros He Hm Hr Hu Ha. run_resolver.
  rewrite (falsy_false _ He), (falsy_false _ Hm); simpl.
  rewrite Hr; simpl. rewrite Hu; simpl.
  destruct (find_row_Some _ _ _ Hr) as [_ ->].
  apply some_attendee_email_false in Ha. by rewrite Ha.
Qed.

Lemma leaveEvent_member eid email w r u :
  eid ≠ "" → email ≠ "" → find_row eid (eventTable (db w)) = Some r →
  find_user_by_email email (userTable (db w)) = Some u →
  attending (db w) eid email →
  let s' := disconnect eid (user_id u) (db w) in
  leaveEvent eid email w
  = (Returned (include_attendees s' r),
     {| db := s';
        emitted := emitted w ++
          membership_messages "userLeft" eid u (attendees_of s' eid) |}).
Proof.
  intros He Hm Hr Hu Ha. run_resolver.
  rewrite (falsy_false _ He), (falsy_false _ Hm); simpl.
  rewrite Hr; simpl. rewrite Hu; simpl.
  destruct (find_row_Some _ _ _ Hr) as [_ Hid]. rewrite Hid.
  apply some_attendee_email in Ha. rewrite Ha; simpl. rewrite Hr; simpl.
  rewrite Hid, <- app_assoc. done.
Qed.

End Mutations.

(** ** Identifiers *)

Lemma length_append (a b : string) :
  String.length (a +:+ b) = (String.length a + String.length b)%nat.
Proof. induction a as [|c a IH]; simpl; [done | by rewrite IH]. Qed.

Lemma longer_cuid_longer ids id :
  id ∈ ids → (String.length id < String.length (longer_cuid ids))%nat.
Proof.
  induction 1 as [id ids|id id' ids _ IH]; simpl; rewrite length_append.
  - assert (0 < String.length (longer_cuid ids))%nat; [|lia].
    destruct ids; simpl; [lia|]. rewrite length_append.
    clear. induction ids as [|i ids IH]; simpl; [lia|].
    rewrite length_append. lia.
  - lia.
Qed.

Lemma longer_cuid_fresh : generates_fresh longer_cuid.
Proof. intros ids Hin%longer_cuid_longer. lia. Qed.

(** ** How the attendee lists follow the tables *)

Lemma filter_ext_elem {A} (P Q : A → Prop) `{∀ x, Decision (P x)}
    `{∀ x, Decision (Q x)} (l : list A) :
  (∀ x, x ∈ l → P x ↔ Q x) → filter P l = filter Q l.
Proof.
  induction l as [|a l IH]; intros Hext; [done|].
  rewrite !filter_cons. rewrite IH by (intros; apply Hext; by right).
  destruct (decide (P a)) as [HP|HP], (decide (Q a)) as [HQ|HQ]; try done.
  - destruct HQ. apply Hext; [left|done].
  - destruct HP. apply Hext; [left|done].
Qed.

Lemma attendees_of_insert_user s u eid :
  (eid, user_id u) ∉ userEvents s →
  attendees_of (insert_user u s) eid = attendees_of s eid.
Proof.
  intros Hn. unfold attendees_of, insert_user; simpl.
  rewrite filter_app, filter_cons, decide_False by done.
  by rewrite filter_nil, app_nil_r.
Qed.

Lemma attendees_of_connect_same s eid uid u :
  u ∈ userTable s → user_id u = uid →
  u ∈ attendees_of (connect eid uid s) eid.
Proof.
  intros Hin Hid. apply elem_of_attendees_of. simpl. set_solver.
Qed.

(** Adding a user under a new id, relating them to the event and
    taking the relation away again leaves the event's list as it was. *)
Lemma attendees_of_insert_connect_disconnect s u eid :
  user_id u ∉ (user_id <$> userTable s) →
  attendees_of
    (disconnect eid (user_id u) (connect eid (user_id u) (insert_user u s))) eid
  = attendees_of s eid.
Proof.
  intros Hfresh. unfold attendees_of; simpl.
  rewrite filter_app, filter_cons, decide_False by set_solver.
  rewrite filter_nil, app_nil_r.
  apply filter_ext_elem. intros v Hv.
  assert (user_id v ≠ user_id u) by (intros Heq; apply Hfresh; set_solver).
  set_solver.
Qed.

(** ** The foreign keys hold in every reachable store *)

Lemma referential_insert_user s u :
  referential s → referential (insert_user u s).
Proof.
  intros Hs eid uid Hp. destruct (Hs eid uid Hp) as [He Hu].
  split; [done|]. simpl. rewrite fmap_app. set_solver.
Qed.

Lemma referential_connect s eid u r :
  find_row eid (eventTable s) = Some r → u ∈ userTable s →
  referential s → referential (connect eid (user_id u) s).
Proof.
  intros [Hr Hid]%find_row_Some Hu Hs e v Hp. simpl in *.
  apply elem_of_union in Hp as [Hp%elem_of_singleton|Hp]; [|by apply Hs].
  injection Hp as -> ->. split.
  - rewrite <- Hid. by apply list_elem_of_fmap_2.
  - by apply list_elem_of_fmap_2.
Qed.

Lemma referential_disconnect s eid uid :
  referential s → referential (disconnect eid uid s).
Proof. intros Hs e v Hp. simpl in *. apply Hs. set_solver. Qed.

Lemma referential_seeded : referential seeded.
Proof.
  intros eid uid Hp. unfold seeded in *; simpl in *.
  rewrite !elem_of_union, !elem_of_singleton in Hp.
  destruct Hp as [[Hp|Hp]|Hp]; injection Hp as -> ->;
    (split; apply (bool_decide_unpack _); by vm_compute).
Qed.

(** ** Every call takes one of the routes *)

Lemma route_total s eid email : Route s eid email.
Proof.
  destruct (decide (eid = "")) as [|He]; [apply MissingInput; by left|].
  destruct (decide (email = "")) as [|Hm]; [apply MissingInput; by right|].
  destruct (find_row eid (eventTable s)) as [r|] eqn:Hr;
    [|by apply NoEvent].
  destruct (find_user_by_email email (userTable s)) as [u|] eqn:Hu.
  - by eapply KnownUser.
  - by eapply UnknownUser.
Qed.

Lemma not_attending_unknown s eid email :
  find_user_by_email email (userTable s) = None → ¬ attending s eid email.
Proof. intros Hu [v Hv]%attending_user_exists. congruence. Qed.

(** The mutations keep the foreign keys, so [referential] holds of
    every database they can reach from one where it holds. *)
Lemma referential_joinEvent (cuid : list string → string) w eid email :
  referential (db w) → referential (db (joinEvent cuid eid email w).2).
Proof.
  intros Href.
  destruct (route_total (db w) eid email)
    as [Hbad|He Hm Hr|r u He Hm Hr Hu|r He Hm Hr Hu].
  - by rewrite (joinEvent_invalid cuid eid email w Hbad).
  - by rewrite (joinEvent_not_found cuid eid email w He Hm Hr).
  - destruct (decide (attending (db w) eid email)) as [Ha|Ha].
    + by rewrite (joinEvent_member cuid eid email w r He Hm Hr Ha).
    + rewrite (joinEvent_known_user cuid eid email w r u He Hm Hr Hu Ha).
      destruct (find_user_by_email_Some _ _ _ Hu) as [Hin _].
      by eapply referential_connect.
  - rewrite (joinEvent_new_user cuid eid email w r He Hm Hr Hu).
    cbn [snd db].
    apply (referential_connect (insert_user _ (db w)) eid
             {| user_id := cuid (user_id <$> userTable (db w));
                user_name := first_part (split "@" email);
                user_email := email |} r); [done| |].
    + simpl. set_solver.
    + by apply referential_insert_user.
Qed.

Lemma referential_leaveEvent w eid email :
  referential (db w) → referential (db (leaveEvent eid email w).2).
Proof.
  intros Href.
  destruct (route_total (db w) eid email)
    as [Hbad|He Hm Hr|r u He Hm Hr Hu|r He Hm Hr Hu].
  - by rewrite (leaveEvent_invalid eid email w Hbad).
  - by rewrite (leaveEvent_not_found eid email w He Hm Hr).
  - destruct (decide (attending (db w) eid email)) as [Ha|Ha].
    + rewrite (leaveEvent_member eid email w r u He Hm Hr Hu Ha).
      by apply referential_disconnect.
    + by rewrite (leaveEvent_not_member eid email w r u He Hm Hr Hu Ha).
  - by rewrite (leaveEvent_user_not_found eid email w r He Hm Hr Hu).
Qed.

(** ** The [me] query, path by path *)

Lemma me_invalid (cuid : list string → string) email w :
  email = "" ∨ includes "@" email = false →
  me cuid email w = (Thrown "Valid email is required", w).
Proof.
  intros H. run_resolver.
  assert (falsy email || negb (includes "@" email) = true) as ->; [|done].
  destruct H as [->| ->]; [done|]. by rewrite orb_true_r.
Qed.

Lemma me_existing (cuid : list string → string) email w u :
  email ≠ "" → includes "@" email = true →
  find_user_by_email email (userTable (db w)) = Some u →
  me cuid email w = (Returned u, w).
Proof.
  intros Hm Hat Hu. run_resolver.
  rewrite (falsy_false _ Hm), Hat; simpl. by rewrite Hu.
Qed.

Lemma me_new (cuid : list string → string) email w :
  email ≠ "" → includes "@" email = true →
  find_user_by_email email (userTable (db w)) = None →
  let u := {| user_id := cuid (user_id <$> userTable (db w));
              user_name :=
                or_else (strip_non_alnum (first_part (split "@" email))) "User";
              user_email := email |} in
  me cuid email w
  = (Returned u, {| db := insert_user u (db w); emitted := emitted w |}).
Proof.
  intros Hm Hat Hu. run_resolver.
  rewrite (falsy_false _ Hm), Hat; simpl. rewrite Hu; simpl. by rewrite Hu.
Qed.

Lemma around_at_valid local rest :
  local +:+ String "@" rest ≠ ""
  ∧ includes "@" (local +:+ String "@" rest) = true.
Proof.
  split; [by destruct local|].
  rewrite includes_append. simpl. apply orb_true_r.
Qed.

(** [strip_non_alnum] keeps exactly the characters of [a-zA-Z0-9], in
    order. *)
Lemma strip_non_alnum_filter s :
  list_ascii_of_string (strip_non_alnum s)
  = List.filter is_alnum (list_ascii_of_string s).
Proof.
  induction s as [|c s IH]; simpl; [done|].
  destruct (is_alnum c); simpl; by rewrite IH.
Qed.

Lemma referential_me (cuid : list string → string) w email :
  referential (db w) → referential (db (me cuid email w).2).
Proof.
  intros Href.
  destruct (decide (email = "")) as [->|Hm];
    [by rewrite me_invalid by (by left)|].
  destruct (includes "@" email) eqn:Hat;
    [|by rewrite me_invalid by (by right)].
  destruct (find_user_by_email email (userTable (db w))) as [u|] eqn:Hu.
  - by rewrite (me_existing cuid email w u).
  - rewrite (me_new cuid email w Hm Hat Hu). by apply referential_insert_user.
Qed.

(** ** What the mutations leave alone *)

Lemma attendees_of_join_new_other s u eid eid' :
  referential s → user_id u ∉ (user_id <$> userTable s) → eid' ≠ eid →
  attendees_of (connect eid (user_id u) (insert_user u s)) eid'
  = attendees_of s eid'.
Proof.
  intros Href Hfresh Hne.
  rewrite attendees_of_connect by done.
  apply attendees_of_insert_user. intros Hp.
  by destruct (Href _ _ Hp) as [_ Hu].
Qed.

Lemma include_attendees_row s r :
  mkEventRow (event_id (include_attendees s r))
             (event_name (include_attendees s r))
             (event_location (include_attendees s r))
             (event_startTime (include_attendees s r)) = r.
Proof. by destruct r. Qed.

(** ** The resolvers run on the seeded database *)

Example join_empty_event :
  joinEvent longer_cuid "ce3" "a@x.com" seeded_world
  = (Returned (mkEvent "ce3" "Food Fair" "Main Street" 1735128000000
                 [newcomer]),
     {| db := {| userTable := [alice; bob; charlie; newcomer];
                 eventTable := eventTable seeded;
                 userEvents := {[ ("ce3", "cu1cu2cu3c") ]} ∪ userEvents seeded |};
        emitted :=
          [ToRoom "event-ce3" "userJoined"
             (JoinEventPayload "ce3" newcomer [newcomer]);
           ToAll "eventUpdated" (EventUpdatedPayload "ce3" [newcomer])] |}).
Proof. reflexivity. Qed.

Example join_twice_one_broadcast :
  let once := joinEvent longer_cuid "ce3" "a@x.com" seeded_world in
  let twice := joinEvent longer_cuid "ce3" "a@x.com" once.2 in
  twice = once
  ∧ attendees_of (db twice.2) "ce3" = [newcomer]
  ∧ length (emitted twice.2) = 2%nat.
Proof. by vm_compute. Qed.

Example leave_never_joined :
  leaveEvent "ce3" "charlie@example.com" seeded_world
  = (Returned (mkEvent "ce3" "Food Fair" "Main Street" 1735128000000 []),
     seeded_world).
Proof. reflexivity. Qed.

Example leave_unknown_user :
  leaveEvent "ce3" "nonexistent@x.com" seeded_world
  = (Thrown "User not found", seeded_world).
Proof. reflexivity. Qed.

Example join_bad_id :
  joinEvent longer_cuid "bad-id" "a@x.com" seeded_world
  = (Thrown "Event not found", seeded_world).
Proof. reflexivity. Qed.

Example me_not_an_email :
  me longer_cuid "not-an-email" seeded_world
  = (Thrown "Valid email is required", seeded_world).
Proof. reflexivity. Qed.

Example me_names :
  [(me longer_cuid "j.doe-99@x.com" seeded_world).1;
   (me longer_cuid "...@x.com" seeded_world).1;
   (me longer_cuid "@" seeded_world).1]
  = [Returned (mkUser "cu1cu2cu3c" "jdoe99" "j.doe-99@x.com");
     Returned (mkUser "cu1cu2cu3c" "User" "...@x.com");
     Returned (mkUser "cu1cu2cu3c" "User" "@")].
Proof. reflexivity. Qed.

Example split_at :
  split "@" <$> ["a@b@c"; ""; "abc"; "@"]
  = [["a"; "b"; "c"]; [""]; ["abc"]; [""; ""]].
Proof. reflexivity. Qed.

(** * The claims *)

(** C1. [joinEvent] is idempotent.  When some attendee of the event
    already has the address, the call returns the event as stored, with
    its attendee list, and leaves the world (database and emissions)
    as it found it.  Consequently a second call in sequence returns
    what the first returned and changes nothing more, so the attendee
    set after two calls is the set after one. *)
Theorem joinEvent_idempotent (cuid : list string → string) w eid email :
  (∀ r, eid ≠ "" → email ≠ "" →
        find_row eid (eventTable (db w)) = Some r →
        attending (db w) eid email →
        joinEvent cuid eid email w
        = (Returned (include_attendees (db w) r), w))
  ∧ (let once := joinEvent cuid eid email w in
     joinEvent cuid eid email once.2 = once
     ∧ attendees_of (db (joinEvent cuid eid email once.2).2) eid
       = attendees_of (db once.2) eid).
Proof.
  split; [intros r; apply joinEvent_member|].
  assert (joinEvent cuid eid email (joinEvent cuid eid email w).2
          = joinEvent cuid eid email w) as Hagain;
    [|cbv zeta; by rewrite Hagain].
  destruct (route_total (db w) eid email) as [Hbad|He Hm Hr|r u He Hm Hr Hu|r He Hm Hr Hu].
  - rewrite (joinEvent_invalid cuid eid email w Hbad); simpl.
    by rewrite (joinEvent_invalid cuid eid email w Hbad).
  - rewrite (joinEvent_not_found cuid eid email w He Hm Hr); simpl.
    by rewrite (joinEvent_not_found cuid eid email w He Hm Hr).
  - destruct (decide (attending (db w) eid email)) as [Ha|Ha].
    + rewrite (joinEvent_member cuid eid email w r He Hm Hr Ha); simpl.
      by rewrite (joinEvent_member cuid eid email w r He Hm Hr Ha).
    + rewrite (joinEvent_known_user _ _ _ _ _ _ He Hm Hr Hu Ha); simpl.
      rewrite (joinEvent_member _ _ _ _ r He Hm); simpl; [done|done|].
      destruct (find_user_by_email_Some _ _ _ Hu) as [Hin Hmail].
      apply Exists_exists. exists u. split; [|done].
      by apply attendees_of_connect_same.
  - rewrite (joinEvent_new_user _ _ _ _ _ He Hm Hr Hu); simpl.
    rewrite (joinEvent_member _ _ _ _ r He Hm); simpl; [done|done|].
    apply Exists_exists.
    exists {| user_id := cuid (user_id <$> userTable (db w));
              user_name := first_part (split "@" email);
              user_email := email |}.
    split; [|done]. apply elem_of_attendees_of. simpl. set_solver.
Qed.

Lemma joinEvent_idempotent_witness :
  attending seeded "ce1" "alice@example.com"
  ∧ joinEvent longer_cuid "ce1" "alice@example.com" seeded_world
    = (Returned (include_attendees seeded techMeetup), seeded_world).
Proof.
  split; [apply (bool_decide_unpack _); by vm_compute|].
  apply (proj1 (joinEvent_idempotent longer_cuid seeded_world
                  "ce1" "alice@example.com") techMeetup).
  - discriminate.
  - discriminate.
  - reflexivity.
  - apply (bool_decide_unpack _). by vm_compute.
Defined.

(** C2, as amended.  For an existing event, non-empty inputs and an
    address that no attendee of the event has before the call,
    [joinEvent] followed at once by [leaveEvent] on the same pair
    succeeds and brings the event's attendee list back to exactly the
    list from before the join, both in the returned event and in the
    database. *)
Theorem joinEvent_leaveEvent_round_trip
    (cuid : list string → string) w eid email r :
  generates_fresh cuid →
  eid ≠ "" → email ≠ "" →
  find_row eid (eventTable (db w)) = Some r →
  ¬ attending (db w) eid email →
  let joined := (joinEvent cuid eid email w).2 in
  ∃ event,
    (leaveEvent eid email joined).1 = Returned event
    ∧ event_attendees event = attendees_of (db w) eid
    ∧ attendees_of (db (leaveEvent eid email joined).2) eid
      = attendees_of (db w) eid.
Proof.
  intros Hfresh He Hm Hr Ha. cbv zeta.
  destruct (find_row_Some _ _ _ Hr) as [_ Hid].
  destruct (find_user_by_email email (userTable (db w))) as [u|] eqn:Hu.
  - rewrite (joinEvent_known_user cuid eid email w r u He Hm Hr Hu Ha); simpl.
    destruct (find_user_by_email_Some _ _ _ Hu) as [Hin Hmail].
    rewrite (leaveEvent_member eid email _ r u He Hm); simpl; try done.
    + assert ((eid, user_id u) ∉ userEvents (db w)) as Hn.
      { intros Hp. apply Ha, Exists_exists. exists u.
        by rewrite elem_of_attendees_of. }
      rewrite (disconnect_connect _ _ _ Hn).
      eexists; split; [reflexivity|]. simpl. by rewrite Hid.
    + apply Exists_exists. exists u. split; [|done].
      by apply attendees_of_connect_same.
  - rewrite (joinEvent_new_user cuid eid email w r He Hm Hr Hu); simpl.
    set (u := {| user_id := cuid (user_id <$> userTable (db w));
                 user_name := first_part (split "@" email);
                 user_email := email |}).
    rewrite (leaveEvent_member eid email _ r u He Hm); simpl; try done.
    + pose proof (attendees_of_insert_connect_disconnect (db w) u eid
                    (Hfresh _)) as Hback.
      change (user_id u) with (cuid (user_id <$> userTable (db w))) in Hback.
      eexists; split; [reflexivity|].
      unfold include_attendees; cbn [event_attendees].
      by rewrite Hid, Hback.
    + by apply find_user_by_email_app_new.
    + apply Exists_exists. exists u. split; [|done].
      apply elem_of_attendees_of. simpl. set_solver.
Qed.

Lemma joinEvent_leaveEvent_round_trip_witness :
  ¬ attending seeded "ce3" "carol@example.com"
  ∧ ∃ event,
      (leaveEvent "ce3" "carol@example.com"
         (joinEvent longer_cuid "ce3" "carol@example.com" seeded_world).2).1
      = Returned event
      ∧ event_attendees event = attendees_of seeded "ce3"
      ∧ attendees_of
          (db (leaveEvent "ce3" "carol@example.com"
                 (joinEvent longer_cuid "ce3" "carol@example.com"
                    seeded_world).2).2) "ce3"
        = attendees_of seeded "ce3".
Proof.
  split; [apply (bool_decide_unpack _); by vm_compute|].
  apply (joinEvent_leaveEvent_round_trip longer_cuid seeded_world
           "ce3" "carol@example.com" foodFair).
  - apply longer_cuid_fresh.
  - discriminate.
  - discriminate.
  - reflexivity.
  - apply (bool_decide_unpack _). by vm_compute.
Defined.

(** C2, as stated, fails when the user already attends: the join is
    then a no-op and the leave removes the membership that was there
    before.  In the seeded database Alice attends the first event;
    after [joinEvent] and [leaveEvent] for her the event has lost her. *)
Lemma joinEvent_leaveEvent_member_counterexample :
  let after :=
    leaveEvent "ce1" "alice@example.com"
      (joinEvent longer_cuid "ce1" "alice@example.com" seeded_world).2 in
  "ce1" ≠ "" ∧ "alice@example.com" ≠ ""
  ∧ find_row "ce1" (eventTable seeded) = Some techMeetup
  ∧ attendees_of seeded "ce1" = [alice; bob]
  ∧ after.1 = Returned (mkEvent "ce1" "Tech Meetup" "Downtown Hall"
                          1734717600000 [bob])
  ∧ attendees_of (db after.2) "ce1" = [bob]
  ∧ attendees_of (db after.2) "ce1" ≠ attendees_of seeded "ce1"
  ∧ alice ∈ attendees_of seeded "ce1"
  ∧ alice ∉ attendees_of (db after.2) "ce1".
Proof.
  cbv zeta. repeat split; try discriminate; try (by vm_compute).
  - apply (bool_decide_unpack _). by vm_compute.
  - apply (bool_decide_unpack _). by vm_compute.
Qed.

(** C3. The error contract of [leaveEvent] on non-empty inputs: with
    no event of that id it throws "Event not found"; with the event
    but no user of that address it throws "User not found"; and in
    every case the user table is left as it was, whereas [joinEvent]
    on the same existing event and unknown address adds a user. *)
Theorem leaveEvent_error_contract
    (cuid : list string → string) w eid email :
  eid ≠ "" → email ≠ "" →
  (find_row eid (eventTable (db w)) = None →
   leaveEvent eid email w = (Thrown "Event not found", w))
  ∧ (∀ r, find_row eid (eventTable (db w)) = Some r →
          find_user_by_email email (userTable (db w)) = None →
          leaveEvent eid email w = (Thrown "User not found", w)
          ∧ length (userTable (db (joinEvent cuid eid email w).2))
            = S (length (userTable (db w))))
  ∧ userTable (db (leaveEvent eid email w).2) = userTable (db w).
Proof.
  intros He Hm. split; [by apply leaveEvent_not_found|]. split.
  - intros r Hr Hu. split; [by eapply leaveEvent_user_not_found|].
    rewrite (joinEvent_new_user cuid eid email w r He Hm Hr Hu); simpl.
    rewrite length_app. simpl. lia.
  - destruct (find_row eid (eventTable (db w))) as [r|] eqn:Hr;
      [|by rewrite leaveEvent_not_found].
    destruct (find_user_by_email email (userTable (db w))) as [u|] eqn:Hu;
      [|by rewrite (leaveEvent_user_not_found eid email w r)].
    destruct (decide (attending (db w) eid email)) as [Ha|Ha].
    + by rewrite (leaveEvent_member eid email w r u).
    + by rewrite (leaveEvent_not_member eid email w r u).
Qed.

Lemma leaveEvent_error_contract_witness :
  leaveEvent "ce1" "nonexistent@x.com" seeded_world
  = (Thrown "User not found", seeded_world)
  ∧ leaveEvent "bad-id" "alice@example.com" seeded_world
    = (Thrown "Event not found", seeded_world).
Proof.
  split.
  - apply (proj1 (proj2 (leaveEvent_error_contract longer_cuid seeded_world
                           "ce1" "nonexistent@x.com" ltac:(discriminate)
                           ltac:(discriminate)))
             techMeetup); reflexivity.
  - apply (proj1 (leaveEvent_error_contract longer_cuid seeded_world
                    "bad-id" "alice@example.com" ltac:(discriminate)
                    ltac:(discriminate))).
    reflexivity.
Defined.

(** C4. [leaveEvent] for a user who is not a member: when the event
    exists and no attendee of it has the address, the call returns the
    event as stored and leaves the world untouched if a user with the
    address exists, and throws "User not found" if none does. *)
Theorem leaveEvent_not_member_noop w eid email r :
  eid ≠ "" → email ≠ "" →
  find_row eid (eventTable (db w)) = Some r →
  ¬ attending (db w) eid email →
  (is_Some (find_user_by_email email (userTable (db w))) →
   leaveEvent eid email w = (Returned (include_attendees (db w) r), w))
  ∧ (find_user_by_email email (userTable (db w)) = None →
     leaveEvent eid email w = (Thrown "User not found", w)).
Proof.
  intros He Hm Hr Ha. split.
  - intros [u Hu]. by eapply leaveEvent_not_member.
  - intros Hu. by eapply leaveEvent_user_not_found.
Qed.

Lemma leaveEvent_not_member_noop_witness :
  ¬ attending seeded "ce1" "charlie@example.com"
  ∧ leaveEvent "ce1" "charlie@example.com" seeded_world
    = (Returned (include_attendees seeded techMeetup), seeded_world).
Proof.
  split; [apply (bool_decide_unpack _); by vm_compute|].
  apply (proj1 (leaveEvent_not_member_noop seeded_world
                  "ce1" "charlie@example.com" techMeetup
                  ltac:(discriminate) ltac:(discriminate) eq_refl
                  ltac:(apply (bool_decide_unpack _); by vm_compute))).
  by exists charlie.
Defined.

(** C5. Broadcasts of [joinEvent] on an existing event with non-empty
    inputs.  If no attendee has the address, the call returns the
    updated event and appends exactly two messages to what was emitted
    before: first [userJoined] to the room of the event, then
    [eventUpdated] to everyone, both carrying the attendee list of the
    event as it stands in the database after the join, a list that
    contains the joining user.  If some attendee already has the
    address, nothing is emitted. *)
Theorem joinEvent_broadcast (cuid : list string → string) w eid email r :
  eid ≠ "" → email ≠ "" →
  find_row eid (eventTable (db w)) = Some r →
  let after := joinEvent cuid eid email w in
  (¬ attending (db w) eid email →
   ∃ user,
     let attendees := attendees_of (db after.2) eid in
     emitted after.2
     = emitted w ++
         [ToRoom ("event-" +:+ eid) "userJoined"
            (JoinEventPayload eid user attendees);
          ToAll "eventUpdated" (EventUpdatedPayload eid attendees)]
     ∧ user_email user = email
     ∧ user ∈ attendees
     ∧ ∃ event, after.1 = Returned event ∧ event_attendees event = attendees)
  ∧ (attending (db w) eid email → emitted after.2 = emitted w).
Proof.
  intros He Hm Hr. cbv zeta. split.
  - intros Ha. destruct (find_row_Some _ _ _ Hr) as [_ Hid].
    destruct (find_user_by_email email (userTable (db w))) as [u|] eqn:Hu.
    + rewrite (joinEvent_known_user cuid eid email w r u He Hm Hr Hu Ha).
      destruct (find_user_by_email_Some _ _ _ Hu) as [Hin Hmail].
      exists u. cbn [fst snd db emitted]. split; [done|]. split; [done|].
      split; [by apply attendees_of_connect_same|].
      eexists; split; [reflexivity|].
      unfold include_attendees; cbn [event_attendees]. by rewrite Hid.
    + rewrite (joinEvent_new_user cuid eid email w r He Hm Hr Hu).
      eexists. cbn [fst snd db emitted]. split; [reflexivity|].
      split; [done|]. split.
      * apply elem_of_attendees_of. simpl. set_solver.
      * eexists; split; [reflexivity|].
        unfold include_attendees; cbn [event_attendees]. by rewrite Hid.
  - intros Ha. by rewrite (joinEvent_member cuid eid email w r He Hm Hr Ha).
Qed.

Lemma joinEvent_broadcast_witness :
  ¬ attending seeded "ce3" "a@x.com"
  ∧ ∃ user,
      emitted (joinEvent longer_cuid "ce3" "a@x.com" seeded_world).2
      = [ToRoom "event-ce3" "userJoined"
           (JoinEventPayload "ce3" user
              (attendees_of
                 (db (joinEvent longer_cuid "ce3" "a@x.com" seeded_world).2)
                 "ce3"));
         ToAll "eventUpdated"
           (EventUpdatedPayload "ce3"
              (attendees_of
                 (db (joinEvent longer_cuid "ce3" "a@x.com" seeded_world).2)
                 "ce3"))].
Proof.
  assert (¬ attending seeded "ce3" "a@x.com") as Hnot
    by (apply (bool_decide_unpack _); by vm_compute).
  split; [done|].
  destruct (proj1 (joinEvent_broadcast longer_cuid seeded_world
                     "ce3" "a@x.com" foodFair
                     ltac:(discriminate) ltac:(discriminate) eq_refl) Hnot)
    as (user & Hemit & _).
  exists user. exact Hemit.
Defined.

(** C6. The [me] query.  It throws exactly when the address is empty
    or has no '@', the message then being "Valid email is required" and
    the world untouched.  Otherwise it returns: the stored user, with
    nothing written, when one has the address; and when none has, a new
    user whose name is the text before the first '@' with every
    character outside [a-zA-Z0-9] removed, or "User" when nothing is
    left of it, the world after the call being the world before with
    that user appended as a row to the user table and nothing else
    changed. *)
Theorem me_contract (cuid : list string → string) w email :
  (∀ msg, (me cuid email w).1 = Thrown msg
          ↔ msg = "Valid email is required"
            ∧ (email = "" ∨ includes "@" email = false))
  ∧ (email = "" ∨ includes "@" email = false → (me cuid email w).2 = w)
  ∧ (∀ u, email ≠ "" → includes "@" email = true →
          find_user_by_email email (userTable (db w)) = Some u →
          me cuid email w = (Returned u, w))
  ∧ (∀ local rest,
        email = local +:+ String "@" rest → includes "@" local = false →
        find_user_by_email email (userTable (db w)) = None →
        let stripped := strip_non_alnum local in
        let u := {| user_id := cuid (user_id <$> userTable (db w));
                    user_name := if decide (stripped = "") then "User"
                                 else stripped;
                    user_email := email |} in
        me cuid email w
        = (Returned u,
           {| db := {| userTable := userTable (db w) ++ [u];
                       eventTable := eventTable (db w);
                       userEvents := userEvents (db w) |};
              emitted := emitted w |})).
Proof.
  split; [|split; [|split]].
  - intros msg. split.
    + destruct (decide (email = "")) as [->|Hm].
      { rewrite me_invalid by (by left). simpl. intros [= <-]. auto. }
      destruct (includes "@" email) eqn:Hat.
      * destruct (find_user_by_email email (userTable (db w))) as [u|] eqn:Hu.
        -- by rewrite (me_existing cuid email w u).
        -- by rewrite (me_new cuid email w).
      * rewrite me_invalid by (by right). simpl. intros [= <-]. auto.
    + intros [-> Hbad]. by rewrite me_invalid.
  - intros Hbad. by rewrite me_invalid.
  - intros u. apply me_existing.
  - intros local rest -> Hlocal Hu.
    destruct (around_at_valid local rest) as [Hm Hat].
    rewrite (me_new cuid _ w Hm Hat Hu).
    rewrite (first_part_split _ _ _ Hlocal). unfold or_else, falsy.
    unfold insert_user.
    cbv zeta. destruct (decide (strip_non_alnum local = "")) as [E|E].
    + by rewrite bool_decide_eq_true_2.
    + by rewrite bool_decide_eq_false_2.
Qed.

Lemma me_contract_witness :
  (me longer_cuid "not-an-email" seeded_world).1
  = Thrown "Valid email is required"
  ∧ me longer_cuid "bob@example.com" seeded_world = (Returned bob, seeded_world)
  ∧ me longer_cuid "j.doe-99@x.com" seeded_world
    = (Returned (mkUser "cu1cu2cu3c" "jdoe99" "j.doe-99@x.com"),
       {| db := {| userTable :=
                     [alice; bob; charlie;
                      mkUser "cu1cu2cu3c" "jdoe99" "j.doe-99@x.com"];
                   eventTable := [techMeetup; musicFestival; foodFair];
                   userEvents :=
                     {[ ("ce1", "cu1"); ("ce1", "cu2"); ("ce2", "cu1") ]} |};
          emitted := [] |}).
Proof.
  split; [|split].
  - apply (proj1 (me_contract longer_cuid seeded_world "not-an-email")).
    split; [reflexivity | right; reflexivity].
  - apply (proj1 (proj2 (proj2 (me_contract longer_cuid seeded_world
                                  "bob@example.com")))).
    + discriminate.
    + reflexivity.
    + reflexivity.
  - rewrite (proj2 (proj2 (proj2 (me_contract longer_cuid seeded_world
                                    "j.doe-99@x.com")))
               "j.doe-99" "x.com" eq_refl eq_refl eq_refl).
    reflexivity.
Defined.

(** C7. The name given by [joinEvent] when it creates the user is the
    text before the first '@' as it stands (the whole address when it
    has no '@'): nothing is removed and there is no fallback.  So there
    is an address for which the row created by [joinEvent] and the row
    created by [me], from the same database, have different names. *)
Theorem joinEvent_name_asymmetry :
  (∀ (cuid : list string → string) w eid local rest r,
     let email := local +:+ String "@" rest in
     eid ≠ "" → includes "@" local = false →
     find_row eid (eventTable (db w)) = Some r →
     find_user_by_email email (userTable (db w)) = None →
     userTable (db (joinEvent cuid eid email w).2)
     = userTable (db w)
       ++ [mkUser (cuid (user_id <$> userTable (db w))) local email])
  ∧ (∀ (cuid : list string → string) w eid email r,
       eid ≠ "" → email ≠ "" → includes "@" email = false →
       find_row eid (eventTable (db w)) = Some r →
       find_user_by_email email (userTable (db w)) = None →
       userTable (db (joinEvent cuid eid email w).2)
       = userTable (db w)
         ++ [mkUser (cuid (user_id <$> userTable (db w))) email email])
  ∧ (∃ email,
       ∀ (cuid : list string → string) w eid r,
         eid ≠ "" →
         find_row eid (eventTable (db w)) = Some r →
         find_user_by_email email (userTable (db w)) = None →
         ∃ joined created,
           userTable (db (joinEvent cuid eid email w).2)
           = userTable (db w) ++ [joined]
           ∧ userTable (db (me cuid email w).2) = userTable (db w) ++ [created]
           ∧ user_email joined = email ∧ user_email created = email
           ∧ user_name joined ≠ user_name created).
Proof.
  split; [|split].
  - intros cuid w eid local rest r email He Hlocal Hr Hu. subst email.
    destruct (around_at_valid local rest) as [Hm _].
    rewrite (joinEvent_new_user cuid eid _ w r He Hm Hr Hu).
    cbn [snd db connect insert_user userTable].
    by rewrite (first_part_split _ _ _ Hlocal).
  - intros cuid w eid email r He Hm Hat Hr Hu.
    rewrite (joinEvent_new_user cuid eid _ w r He Hm Hr Hu).
    cbn [snd db connect insert_user userTable].
    by rewrite (first_part_split_whole _ _ Hat).
  - exists "a.b@x.com". intros cuid w eid r He Hr Hu.
    assert ("a.b@x.com" ≠ "") as Hm by discriminate.
    rewrite (joinEvent_new_user cuid eid "a.b@x.com" w r He Hm Hr Hu).
    rewrite (me_new cuid "a.b@x.com" w Hm eq_refl Hu).
    do 2 eexists. cbn [snd db connect insert_user userTable].
    split; [reflexivity|]. split; [reflexivity|].
    cbn [user_email user_name]. split; [done|]. split; [done|].
    intros Hsame. vm_compute in Hsame. discriminate.
Qed.

Lemma joinEvent_name_asymmetry_witness :
  userTable (db (joinEvent longer_cuid "ce3" "a.b@x.com" seeded_world).2)
  = userTable seeded ++ [mkUser "cu1cu2cu3c" "a.b" "a.b@x.com"]
  ∧ (me longer_cuid "a.b@x.com" seeded_world).1
    = Returned (mkUser "cu1cu2cu3c" "ab" "a.b@x.com").
Proof.
  split; [|reflexivity].
  apply (proj1 joinEvent_name_asymmetry longer_cuid seeded_world
           "ce3" "a.b" "x.com" foodFair).
  - discriminate.
  - reflexivity.
  - reflexivity.
  - reflexivity.
Defined.

(** C8. Frame of the mutations.  Whatever the outcome of [joinEvent]
    or [leaveEvent], the event table is as before (so every name,
    location and start time), every user row that existed is still
    there unchanged ([joinEvent] may only append one; [leaveEvent]
    leaves the table as it is), the attendee list of every other event
    is as before, and a returned event carries the id, name, location
    and start time of the stored row. *)
Theorem membership_frame (cuid : list string → string) w eid email :
  generates_fresh cuid → referential (db w) →
  let joined := joinEvent cuid eid email w in
  let left := leaveEvent eid email w in
  (eventTable (db joined.2) = eventTable (db w)
   ∧ userTable (db w) `prefix_of` userTable (db joined.2)
   ∧ (∀ eid', eid' ≠ eid →
        attendees_of (db joined.2) eid' = attendees_of (db w) eid')
   ∧ (∀ event, joined.1 = Returned event →
        find_row eid (eventTable (db w))
        = Some (mkEventRow (event_id event) (event_name event)
                  (event_location event) (event_startTime event))))
  ∧ (eventTable (db left.2) = eventTable (db w)
     ∧ userTable (db left.2) = userTable (db w)
     ∧ (∀ eid', eid' ≠ eid →
          attendees_of (db left.2) eid' = attendees_of (db w) eid')
     ∧ (∀ event, left.1 = Returned event →
          find_row eid (eventTable (db w))
          = Some (mkEventRow (event_id event) (event_name event)
                    (event_location event) (event_startTime event)))).
Proof.
  intros Hfresh Href. cbv zeta.
  destruct (route_total (db w) eid email)
    as [Hbad|He Hm Hr|r u He Hm Hr Hu|r He Hm Hr Hu].
  - rewrite (joinEvent_invalid cuid eid email w Hbad),
      (leaveEvent_invalid eid email w Hbad).
    by repeat split.
  - rewrite (joinEvent_not_found cuid eid email w He Hm Hr),
      (leaveEvent_not_found eid email w He Hm Hr).
    by repeat split.
  - destruct (decide (attending (db w) eid email)) as [Ha|Ha].
    + rewrite (joinEvent_member cuid eid email w r He Hm Hr Ha),
        (leaveEvent_member eid email w r u He Hm Hr Hu Ha).
      cbn [fst snd db]. repeat split; try done.
      * intros event [= <-]. by rewrite include_attendees_row.
      * intros eid' Hne. by apply attendees_of_disconnect.
      * intros event [= <-]. by rewrite include_attendees_row.
    + rewrite (joinEvent_known_user cuid eid email w r u He Hm Hr Hu Ha),
        (leaveEvent_not_member eid email w r u He Hm Hr Hu Ha).
      cbn [fst snd db]. repeat split; try done.
      * intros eid' Hne. by apply attendees_of_connect.
      * intros event [= <-]. by rewrite include_attendees_row.
      * intros event [= <-]. by rewrite include_attendees_row.
  - rewrite (joinEvent_new_user cuid eid email w r He Hm Hr Hu),
      (leaveEvent_user_not_found eid email w r He Hm Hr Hu).
    cbn [fst snd db]. repeat split; try done.
    + by apply prefix_app_r.
    + intros eid' Hne.
      apply (attendees_of_join_new_other (db w)
               {| user_id := cuid (user_id <$> userTable (db w));
                  user_name := first_part (split "@" email);
                  user_email := email |}); [done|apply Hfresh|done].
    + intros event [= <-]. by rewrite include_attendees_row.
Qed.

Lemma membership_frame_witness :
  eventTable (db (joinEvent longer_cuid "ce3" "new@x.com" seeded_world).2)
  = eventTable seeded
  ∧ attendees_of (db (joinEvent longer_cuid "ce3" "new@x.com" seeded_world).2)
      "ce1"
    = attendees_of seeded "ce1"
  ∧ userTable (db (leaveEvent "ce1" "alice@example.com" seeded_world).2)
    = userTable seeded
  ∧ attendees_of (db (leaveEvent "ce1" "alice@example.com" seeded_world).2)
      "ce2"
    = attendees_of seeded "ce2".
Proof.
  pose proof (membership_frame longer_cuid seeded_world "ce3" "new@x.com"
                longer_cuid_fresh referential_seeded) as [Hjoin _].
  pose proof (membership_frame longer_cuid seeded_world
                "ce1" "alice@example.com"
                longer_cuid_fresh referential_seeded) as [_ Hleave].
  destruct Hjoin as (Hevents & _ & Hothers & _).
  destruct Hleave as (_ & Husers & Hothers' & _).
  split; [exact Hevents|]. split; [apply Hothers; discriminate|].
  split; [exact Husers|]. apply Hothers'. discriminate.
Defined.

(** C9. The [events] query returns, without touching the world, a
    list that is sorted by ascending start time and is a rearrangement
    of all the stored events, hence of the same length: one entry per
    row of the event table, with the row's id, name, location and
    start time, and as attendees exactly the rows of the user table
    that the join table relates to the event, all of them, in table
    order. *)
Theorem events_sorted_complete w :
  ∃ listed,
    events w = (Returned listed, w)
    ∧ StronglySorted (λ a b, event_startTime a ≤ event_startTime b) listed
    ∧ listed
      ≡ₚ ((λ r, {| event_id := row_id r;
                   event_name := row_name r;
                   event_location := row_location r;
                   event_startTime := row_startTime r;
                   event_attendees :=
                     filter (λ u, (row_id r, user_id u) ∈ userEvents (db w))
                            (userTable (db w)) |})
          <$> eventTable (db w))
    ∧ length listed = length (eventTable (db w))
    ∧ (∀ event, event ∈ listed →
         event_attendees event
         = filter (λ u, (event_id event, user_id u) ∈ userEvents (db w))
                  (userTable (db w)))
    ∧ (∀ event u, event ∈ listed →
         u ∈ event_attendees event
         ↔ u ∈ userTable (db w)
           ∧ (event_id event, user_id u) ∈ userEvents (db w)).
Proof.
  eexists. split; [reflexivity|].
  pose proof (merge_sort_Permutation startTime_le
                (include_attendees (db w) <$> eventTable (db w))) as Hperm.
  assert (∀ event,
            event ∈ merge_sort startTime_le
                      (include_attendees (db w) <$> eventTable (db w)) →
            event_attendees event
            = filter (λ u, (event_id event, user_id u) ∈ userEvents (db w))
                     (userTable (db w))) as Hatt.
  { intros event Hin. rewrite Hperm in Hin.
    by apply list_elem_of_fmap in Hin as (r & -> & _). }
  split; [apply (StronglySorted_merge_sort startTime_le)|].
  split; [exact Hperm|]. split; [by rewrite Hperm, length_fmap|].
  split; [exact Hatt|].
  intros event u Hin. rewrite (Hatt event Hin), list_elem_of_filter. tauto.
Qed.

Lemma events_sorted_complete_witness :
  let w := {| db := {| userTable := [alice; bob; charlie];
                       eventTable := [foodFair; techMeetup; musicFestival];
                       userEvents :=
                         {[ ("ce1", "cu1"); ("ce1", "cu2"); ("ce2", "cu1") ]} |};
              emitted := [] |} in
  let listed :=
    [mkEvent "ce1" "Tech Meetup" "Downtown Hall" 1734717600000 [alice; bob];
     mkEvent "ce2" "Music Festival" "City Park" 1734879600000 [alice];
     mkEvent "ce3" "Food Fair" "Main Street" 1735128000000 []] in
  events w = (Returned listed, w)
  ∧ StronglySorted (λ a b, event_startTime a ≤ event_startTime b) listed.
Proof.
  intros w listed.
  destruct (events_sorted_complete w) as (listed' & Hrun & Hsorted & _).
  assert (events w = (Returned listed, w)) as Hconcrete by reflexivity.
  rewrite Hconcrete in Hrun. injection Hrun as <-.
  split; [exact Hconcrete | exact Hsorted].
Defined.

(** C10. Errors are atomic.  Whenever [joinEvent] or [leaveEvent]
    throws, the world after the call is the world before it: no row
    written, nothing emitted; and the message is one of the resolver's
    own.  In particular [joinEvent] with an id that no event has and an
    address that no user has throws "Event not found" and creates no
    user, the event lookup coming before the user lookup. *)
Theorem mutation_error_atomic (cuid : list string → string) w eid email :
  (∀ msg, (joinEvent cuid eid email w).1 = Thrown msg →
          (joinEvent cuid eid email w).2 = w
          ∧ msg ∈ ["Event ID and user email are required";
                   "Event not found"])
  ∧ (∀ msg, (leaveEvent eid email w).1 = Thrown msg →
            (leaveEvent eid email w).2 = w
            ∧ msg ∈ ["Event ID and user email are required";
                     "Event not found"; "User not found"])
  ∧ (eid ≠ "" → email ≠ "" →
     find_row eid (eventTable (db w)) = None →
     find_user_by_email email (userTable (db w)) = None →
     joinEvent cuid eid email w = (Thrown "Event not found", w)).
Proof.
  split; [|split].
  - intros msg.
    destruct (route_total (db w) eid email)
      as [Hbad|He Hm Hr|r u He Hm Hr Hu|r He Hm Hr Hu].
    + rewrite (joinEvent_invalid cuid eid email w Hbad); simpl.
      intros [= <-]. set_solver.
    + rewrite (joinEvent_not_found cuid eid email w He Hm Hr); simpl.
      intros [= <-]. set_solver.
    + destruct (decide (attending (db w) eid email)) as [Ha|Ha].
      * by rewrite (joinEvent_member cuid eid email w r He Hm Hr Ha).
      * by rewrite (joinEvent_known_user cuid eid email w r u He Hm Hr Hu Ha).
    + by rewrite (joinEvent_new_user cuid eid email w r He Hm Hr Hu).
  - intros msg.
    destruct (route_total (db w) eid email)
      as [Hbad|He Hm Hr|r u He Hm Hr Hu|r He Hm Hr Hu].
    + rewrite (leaveEvent_invalid eid email w Hbad); simpl.
      intros [= <-]. set_solver.
    + rewrite (leaveEvent_not_found eid email w He Hm Hr); simpl.
      intros [= <-]. set_solver.
    + destruct (decide (attending (db w) eid email)) as [Ha|Ha].
      * by rewrite (leaveEvent_member eid email w r u He Hm Hr Hu Ha).
      * by rewrite (leaveEvent_not_member eid email w r u He Hm Hr Hu Ha).
    + rewrite (leaveEvent_user_not_found eid email w r He Hm Hr Hu); simpl.
      intros [= <-]. set_solver.
  - intros He Hm Hr _. by apply joinEvent_not_found.
Qed.

Lemma mutation_error_atomic_witness :
  find_user_by_email "new@x.com" (userTable seeded) = None
  ∧ joinEvent longer_cuid "bad-id" "new@x.com" seeded_world
    = (Thrown "Event not found", seeded_world)
  ∧ (leaveEvent "ce1" "new@x.com" seeded_world).2 = seeded_world.
Proof.
  split; [reflexivity|]. split.
  - apply (proj2 (proj2 (mutation_error_atomic longer_cuid seeded_world
                           "bad-id" "new@x.com"))).
    + discriminate.
    + discriminate.
    + reflexivity.
    + reflexivity.
  - apply (proj1 (proj2 (mutation_error_atomic longer_cuid seeded_world
                           "ce1" "new@x.com")) "User not found").
    reflexivity.
Defined.

(** * Further properties of the server *)

(** ** Unique keys *)

Lemma same_email_same_user (us : list User) u v :
  NoDup (user_email <$> us) → u ∈ us → v ∈ us →
  user_email u = user_email v → u = v.
Proof.
  induction us as [|x us IH]; intros Hnd Hu Hv Heq; [by inversion Hu|].
  rewrite fmap_cons in Hnd. apply NoDup_cons in Hnd as [Hx Hnd].
  apply elem_of_cons in Hu as [->|Hu]; apply elem_of_cons in Hv as [->|Hv];
    try done.
  - destruct Hx. rewrite Heq. by apply list_elem_of_fmap_2.
  - destruct Hx. rewrite <- Heq. by apply list_elem_of_fmap_2.
  - by apply IH.
Qed.

Lemma same_id_same_user (us : list User) u v :
  NoDup (user_id <$> us) → u ∈ us → v ∈ us →
  user_id u = user_id v → u = v.
Proof.
  induction us as [|x us IH]; intros Hnd Hu Hv Heq; [by inversion Hu|].
  rewrite fmap_cons in Hnd. apply NoDup_cons in Hnd as [Hx Hnd].
  apply elem_of_cons in Hu as [->|Hu]; apply elem_of_cons in Hv as [->|Hv];
    try done.
  - destruct Hx. rewrite Heq. by apply list_elem_of_fmap_2.
  - destruct Hx. rewrite <- Heq. by apply list_elem_of_fmap_2.
  - by apply IH.
Qed.

Lemma attending_found_is_member s eid email u :
  NoDup (user_email <$> userTable s) →
  find_user_by_email email (userTable s) = Some u →
  attending s eid email → (eid, user_id u) ∈ userEvents s.
Proof.
  intros Hnd [Hu Hmail]%find_user_by_email_Some
    (v & [Hv Hp]%elem_of_attendees_of & Hvmail)%Exists_exists.
  by rewrite (same_email_same_user _ u v Hnd Hu Hv) by congruence.
Qed.

Lemma not_attending_after_disconnect s eid email u :
  NoDup (user_email <$> userTable s) →
  find_user_by_email email (userTable s) = Some u →
  ¬ attending (disconnect eid (user_id u) s) eid email.
Proof.
  intros Hnd Hfind Ha.
  pose proof (attending_found_is_member (disconnect eid (user_id u) s)
                eid email u Hnd Hfind Ha) as Hp.
  simpl in Hp. set_solver.
Qed.

Lemma connect_disconnect s eid uid :
  (eid, uid) ∈ userEvents s → connect eid uid (disconnect eid uid s) = s.
Proof.
  intros Hin. destruct s as [us es ue]. unfold disconnect, connect; simpl in *.
  f_equal. apply set_eq. intros p.
  destruct (decide (p = (eid, uid))) as [->|]; set_solver.
Qed.

(** ** [leaveEvent] mirrors [joinEvent] *)

(** Leaving twice is leaving once: with unique addresses in the user
    table, a second [leaveEvent] in sequence returns what the first
    returned (the event without the user, or the same error) and
    changes neither the database nor the emissions. *)
Theorem leaveEvent_idempotent w eid email :
  NoDup (user_email <$> userTable (db w)) →
  leaveEvent eid email (leaveEvent eid email w).2 = leaveEvent eid email w.
Proof.
  intros Hnd.
  destruct (route_total (db w) eid email)
    as [Hbad|He Hm Hr|r u He Hm Hr Hu|r He Hm Hr Hu].
  - rewrite (leaveEvent_invalid eid email w Hbad); simpl.
    by rewrite (leaveEvent_invalid eid email w Hbad).
  - rewrite (leaveEvent_not_found eid email w He Hm Hr); simpl.
    by rewrite (leaveEvent_not_found eid email w He Hm Hr).
  - destruct (decide (attending (db w) eid email)) as [Ha|Ha].
    + rewrite (leaveEvent_member eid email w r u He Hm Hr Hu Ha); simpl.
      rewrite (leaveEvent_not_member eid email _ r u He Hm); simpl; try done.
      by apply not_attending_after_disconnect.
    + rewrite (leaveEvent_not_member eid email w r u He Hm Hr Hu Ha); simpl.
      by rewrite (leaveEvent_not_member eid email w r u He Hm Hr Hu Ha).
  - rewrite (leaveEvent_user_not_found eid email w r He Hm Hr Hu); simpl.
    by rewrite (leaveEvent_user_not_found eid email w r He Hm Hr Hu).
Qed.

Lemma leaveEvent_idempotent_witness :
  leaveEvent "ce1" "alice@example.com"
    (leaveEvent "ce1" "alice@example.com" seeded_world).2
  = leaveEvent "ce1" "alice@example.com" seeded_world.
Proof.
  apply (leaveEvent_idempotent seeded_world "ce1" "alice@example.com").
  apply (bool_decide_unpack _). by vm_compute.
Defined.

(** What a successful mutation guarantees.  When [joinEvent] returns,
    the returned event has the requested id and the attendee list that
    the database now holds for it, and some attendee has the address.
    When [leaveEvent] returns, the same holds of id and list, and, with
    unique addresses in the user table, no attendee has the address. *)
Theorem mutation_postcondition (cuid : list string → string) w eid email :
  (∀ event, (joinEvent cuid eid email w).1 = Returned event →
     let w' := (joinEvent cuid eid email w).2 in
     event_id event = eid
     ∧ event_attendees event = attendees_of (db w') eid
     ∧ attending (db w') eid email)
  ∧ (∀ event, NoDup (user_email <$> userTable (db w)) →
       (leaveEvent eid email w).1 = Returned event →
       let w' := (leaveEvent eid email w).2 in
       event_id event = eid
       ∧ event_attendees event = attendees_of (db w') eid
       ∧ ¬ attending (db w') eid email).
Proof.
  split.
  - intros event. cbv zeta.
    destruct (route_total (db w) eid email)
      as [Hbad|He Hm Hr|r u He Hm Hr Hu|r He Hm Hr Hu].
    + by rewrite (joinEvent_invalid cuid eid email w Hbad).
    + by rewrite (joinEvent_not_found cuid eid email w He Hm Hr).
    + destruct (find_row_Some _ _ _ Hr) as [_ Hid].
      destruct (find_user_by_email_Some _ _ _ Hu) as [Hin Hmail].
      destruct (decide (attending (db w) eid email)) as [Ha|Ha].
      * rewrite (joinEvent_member cuid eid email w r He Hm Hr Ha).
        intros [= <-]. simpl. by rewrite Hid.
      * rewrite (joinEvent_known_user cuid eid email w r u He Hm Hr Hu Ha).
        intros [= <-]. cbn [fst snd db include_attendees event_id
                             event_attendees].
        rewrite Hid. repeat split.
        apply Exists_exists. exists u. split; [|done].
        by apply attendees_of_connect_same.
    + destruct (find_row_Some _ _ _ Hr) as [_ Hid].
      rewrite (joinEvent_new_user cuid eid email w r He Hm Hr Hu).
      intros [= <-]. cbn [fst snd db include_attendees event_id
                           event_attendees].
      rewrite Hid. repeat split.
      apply Exists_exists.
      exists {| user_id := cuid (user_id <$> userTable (db w));
                user_name := first_part (split "@" email);
                user_email := email |}.
      split; [|done]. apply elem_of_attendees_of. simpl. set_solver.
  - intros event Hnd. cbv zeta.
    destruct (route_total (db w) eid email)
      as [Hbad|He Hm Hr|r u He Hm Hr Hu|r He Hm Hr Hu].
    + by rewrite (leaveEvent_invalid eid email w Hbad).
    + by rewrite (leaveEvent_not_found eid email w He Hm Hr).
    + destruct (find_row_Some _ _ _ Hr) as [_ Hid].
      destruct (decide (attending (db w) eid email)) as [Ha|Ha].
      * rewrite (leaveEvent_member eid email w r u He Hm Hr Hu Ha).
        intros [= <-]. cbn [fst snd db include_attendees event_id
                             event_attendees].
        rewrite Hid. repeat split.
        by apply not_attending_after_disconnect.
      * rewrite (leaveEvent_not_member eid email w r u He Hm Hr Hu Ha).
        intros [= <-]. simpl. by rewrite Hid.
    + by rewrite (leaveEvent_user_not_found eid email w r He Hm Hr Hu).
Qed.

Lemma mutation_postcondition_witness :
  attending (db (joinEvent longer_cuid "ce3" "a@x.com" seeded_world).2)
    "ce3" "a@x.com"
  ∧ ¬ attending (db (leaveEvent "ce1" "bob@example.com" seeded_world).2)
        "ce1" "bob@example.com".
Proof.
  split.
  - apply (proj1 (mutation_postcondition longer_cuid seeded_world
                    "ce3" "a@x.com")
             (mkEvent "ce3" "Food Fair" "Main Street" 1735128000000
                [newcomer])).
    reflexivity.
  - apply (proj2 (mutation_postcondition longer_cuid seeded_world
                    "ce1" "bob@example.com")
             (mkEvent "ce1" "Tech Meetup" "Downtown Hall" 1734717600000
                [alice])).
    + apply (bool_decide_unpack _). by vm_compute.
    + reflexivity.
Defined.

(** The round trip the other way: for a member of an existing event,
    with unique addresses in the user table, [leaveEvent] followed by
    [joinEvent] on the same pair puts the database back exactly as it
    was, and the second call returns the event with the attendee list
    from before. *)
Theorem leaveEvent_joinEvent_round_trip
    (cuid : list string → string) w eid email r :
  NoDup (user_email <$> userTable (db w)) →
  eid ≠ "" → email ≠ "" →
  find_row eid (eventTable (db w)) = Some r →
  attending (db w) eid email →
  let left := (leaveEvent eid email w).2 in
  db (joinEvent cuid eid email left).2 = db w
  ∧ (joinEvent cuid eid email left).1 = Returned (include_attendees (db w) r).
Proof.
  intros Hnd He Hm Hr Ha. cbv zeta.
  destruct (attending_user_exists _ _ _ Ha) as [u Hu].
  rewrite (leaveEvent_member eid email w r u He Hm Hr Hu Ha). cbn [snd].
  rewrite (joinEvent_known_user cuid eid email _ r u He Hm); try done.
  - cbn [fst snd db].
    by rewrite connect_disconnect
      by (by eapply attending_found_is_member).
  - by apply not_attending_after_disconnect.
Qed.

Lemma leaveEvent_joinEvent_round_trip_witness :
  db (joinEvent longer_cuid "ce1" "alice@example.com"
        (leaveEvent "ce1" "alice@example.com" seeded_world).2).2
  = seeded.
Proof.
  apply (leaveEvent_joinEvent_round_trip longer_cuid seeded_world
           "ce1" "alice@example.com" techMeetup).
  - apply (bool_decide_unpack _). by vm_compute.
  - discriminate.
  - discriminate.
  - reflexivity.
  - apply (bool_decide_unpack _). by vm_compute.
Defined.

(** Broadcasts of [leaveEvent] on an existing event with non-empty
    inputs and unique addresses in the user table.  If some attendee
    has the address, the call appends exactly two messages: [userLeft]
    to the room of the event, then [eventUpdated] to everyone, both
    carrying the attendee list of the event after the removal, on
    which the leaving user no longer is.  If no attendee has the
    address, or the call throws, nothing is emitted. *)
Theorem leaveEvent_broadcast w eid email r :
  NoDup (user_email <$> userTable (db w)) →
  eid ≠ "" → email ≠ "" →
  find_row eid (eventTable (db w)) = Some r →
  let after := leaveEvent eid email w in
  (attending (db w) eid email →
   ∃ user,
     let attendees := attendees_of (db after.2) eid in
     emitted after.2
     = emitted w ++
         [ToRoom ("event-" +:+ eid) "userLeft"
            (JoinEventPayload eid user attendees);
          ToAll "eventUpdated" (EventUpdatedPayload eid attendees)]
     ∧ user_email user = email
     ∧ user ∈ attendees_of (db w) eid
     ∧ user ∉ attendees)
  ∧ (¬ attending (db w) eid email → emitted after.2 = emitted w).
Proof.
  intros Hnd He Hm Hr. cbv zeta. split.
  - intros Ha. destruct (attending_user_exists _ _ _ Ha) as [u Hu].
    rewrite (leaveEvent_member eid email w r u He Hm Hr Hu Ha).
    destruct (find_user_by_email_Some _ _ _ Hu) as [Hin Hmail].
    exists u. cbn [fst snd db emitted]. split; [done|]. split; [done|].
    split.
    + apply elem_of_attendees_of. split; [done|].
      by eapply attending_found_is_member.
    + rewrite elem_of_attendees_of. simpl. set_solver.
  - intros Ha.
    destruct (find_user_by_email email (userTable (db w))) as [u|] eqn:Hu.
    + by rewrite (leaveEvent_not_member eid email w r u He Hm Hr Hu Ha).
    + by rewrite (leaveEvent_user_not_found eid email w r He Hm Hr Hu).
Qed.

Lemma leaveEvent_broadcast_witness :
  ∃ user,
    emitted (leaveEvent "ce1" "alice@example.com" seeded_world).2
    = [ToRoom "event-ce1" "userLeft"
         (JoinEventPayload "ce1" user
            (attendees_of
               (db (leaveEvent "ce1" "alice@example.com" seeded_world).2)
               "ce1"));
       ToAll "eventUpdated"
         (EventUpdatedPayload "ce1"
            (attendees_of
               (db (leaveEvent "ce1" "alice@example.com" seeded_world).2)
               "ce1"))].
Proof.
  destruct (proj1 (leaveEvent_broadcast seeded_world
                     "ce1" "alice@example.com" techMeetup
                     ltac:(apply (bool_decide_unpack _); by vm_compute)
                     ltac:(discriminate) ltac:(discriminate) eq_refl)
              ltac:(apply (bool_decide_unpack _); by vm_compute))
    as (user & Hemit & _).
  exists user. exact Hemit.
Defined.

(** ** By how much an attendee list changes *)

Lemma filter_one_more {A} (P Q : A → Prop) `{∀ x, Decision (P x)}
    `{∀ x, Decision (Q x)} (l : list A) u :
  NoDup l → u ∈ l → ¬ P u → Q u →
  (∀ x, x ∈ l → x ≠ u → Q x ↔ P x) →
  filter Q l ≡ₚ u :: filter P l.
Proof.
  induction l as [|a l IH]; intros Hnd Hu HP HQ Hext; [by inversion Hu|].
  apply NoDup_cons in Hnd as [Ha Hnd]. rewrite !filter_cons.
  apply elem_of_cons in Hu as [->|Hu].
  - rewrite decide_True, decide_False by done. f_equiv.
    apply reflexive_eq, filter_ext_elem. intros x Hx.
    apply Hext; [by right|]. intros ->. done.
  - assert (a ≠ u) as Hne by (intros ->; done).
    assert (filter Q l ≡ₚ u :: filter P l) as Hrest
      by (apply IH; try done; intros x Hx; apply Hext; by right).
    destruct (decide (P a)) as [HPa|HPa].
    + rewrite decide_True by (apply Hext; [left|done|done]).
      rewrite Hrest. apply Permutation_swap.
    + by rewrite decide_False by (rewrite Hext; [done|left|done]).
Qed.

Lemma NoDup_users_of_ids (us : list User) :
  NoDup (user_id <$> us) → NoDup us.
Proof. apply NoDup_fmap_1. Qed.

(** A state-changing join adds exactly one attendee and a
    state-changing leave removes exactly one (the count check of the
    leave tests): with unique ids in the user table, an existing event
    and non-empty inputs, the attendee list after [joinEvent] for a
    non-member is a rearrangement of the joining user and the list
    before; with unique addresses as well, the list before
    [leaveEvent] for a member is a rearrangement of the leaving user
    and the list after. *)
Theorem membership_changes_by_one (cuid : list string → string) w eid email r :
  generates_fresh cuid →
  NoDup (user_id <$> userTable (db w)) →
  eid ≠ "" → email ≠ "" →
  find_row eid (eventTable (db w)) = Some r →
  (¬ attending (db w) eid email →
   ∃ user,
     user_email user = email
     ∧ attendees_of (db (joinEvent cuid eid email w).2) eid
       ≡ₚ user :: attendees_of (db w) eid
     ∧ length (attendees_of (db (joinEvent cuid eid email w).2) eid)
       = S (length (attendees_of (db w) eid)))
  ∧ (NoDup (user_email <$> userTable (db w)) → attending (db w) eid email →
     ∃ user,
       user_email user = email
       ∧ attendees_of (db w) eid
         ≡ₚ user :: attendees_of (db (leaveEvent eid email w).2) eid
       ∧ length (attendees_of (db w) eid)
         = S (length (attendees_of (db (leaveEvent eid email w).2) eid))).
Proof.
  intros Hfresh Hids He Hm Hr. split.
  - intros Ha.
    destruct (find_user_by_email email (userTable (db w))) as [u|] eqn:Hu.
    + rewrite (joinEvent_known_user cuid eid email w r u He Hm Hr Hu Ha).
      destruct (find_user_by_email_Some _ _ _ Hu) as [Hin Hmail].
      cbn [snd db]. exists u. split; [done|].
      assert (attendees_of (connect eid (user_id u) (db w)) eid
              ≡ₚ u :: attendees_of (db w) eid) as Hperm.
      { unfold attendees_of. apply filter_one_more; try done.
        - by apply NoDup_users_of_ids.
        - intros Hp. apply Ha, Exists_exists. exists u.
          by rewrite elem_of_attendees_of.
        - simpl. set_solver.
        - intros x Hx Hne. simpl.
          assert (user_id x ≠ user_id u)
            by (intros Heq; by apply Hne, (same_id_same_user _ _ _ Hids)).
          set_solver. }
      split; [done|]. by rewrite Hperm.
    + rewrite (joinEvent_new_user cuid eid email w r He Hm Hr Hu).
      cbn [snd db].
      set (u := {| user_id := cuid (user_id <$> userTable (db w));
                   user_name := first_part (split "@" email);
                   user_email := email |}).
      exists u. split; [done|].
      assert (attendees_of (connect eid (user_id u) (insert_user u (db w))) eid
              = attendees_of (db w) eid ++ [u]) as Heq.
      { unfold attendees_of; simpl.
        rewrite filter_app, filter_cons, decide_True by set_solver.
        rewrite filter_nil. f_equal.
        apply filter_ext_elem. intros x Hx.
        assert (user_id x ≠ cuid (user_id <$> userTable (db w))).
        { intros Hx'. apply (Hfresh (user_id <$> userTable (db w))).
          rewrite <- Hx'. by apply list_elem_of_fmap_2. }
        set_solver. }
      change (cuid (user_id <$> userTable (db w))) with (user_id u).
      rewrite Heq. split.
      * by rewrite Permutation_app_comm.
      * rewrite length_app. simpl. lia.
  - intros Hmails Ha.
    destruct (attending_user_exists _ _ _ Ha) as [u Hu].
    rewrite (leaveEvent_member eid email w r u He Hm Hr Hu Ha).
    destruct (find_user_by_email_Some _ _ _ Hu) as [Hin Hmail].
    cbn [snd db]. exists u. split; [done|].
    assert (attendees_of (db w) eid
            ≡ₚ u :: attendees_of (disconnect eid (user_id u) (db w)) eid)
      as Hperm.
    { unfold attendees_of. apply filter_one_more; try done.
      - by apply NoDup_users_of_ids.
      - simpl. set_solver.
      - by eapply attending_found_is_member.
      - intros x Hx Hne. simpl.
        assert (user_id x ≠ user_id u)
          by (intros Heq; by apply Hne, (same_id_same_user _ _ _ Hids)).
        set_solver. }
    split; [done|]. by rewrite Hperm.
Qed.

Lemma membership_changes_by_one_witness :
  (∃ user,
      user_email user = "a@x.com"
      ∧ attendees_of (db (joinEvent longer_cuid "ce1" "a@x.com"
                            seeded_world).2) "ce1"
        ≡ₚ user :: attendees_of seeded "ce1"
      ∧ length (attendees_of (db (joinEvent longer_cuid "ce1" "a@x.com"
                                    seeded_world).2) "ce1")
        = S (length (attendees_of seeded "ce1")))
  ∧ (∃ user,
        user_email user = "bob@example.com"
        ∧ attendees_of seeded "ce1"
          ≡ₚ user :: attendees_of
                       (db (leaveEvent "ce1" "bob@example.com"
                              seeded_world).2) "ce1"
        ∧ length (attendees_of seeded "ce1")
          = S (length (attendees_of
                         (db (leaveEvent "ce1" "bob@example.com"
                                seeded_world).2) "ce1"))).
Proof.
  split.
  - apply (proj1 (membership_changes_by_one longer_cuid seeded_world
                    "ce1" "a@x.com" techMeetup longer_cuid_fresh
                    ltac:(apply (bool_decide_unpack _); by vm_compute)
                    ltac:(discriminate) ltac:(discriminate) eq_refl)).
    apply (bool_decide_unpack _). by vm_compute.
  - apply (proj2 (membership_changes_by_one longer_cuid seeded_world
                    "ce1" "bob@example.com" techMeetup longer_cuid_fresh
                    ltac:(apply (bool_decide_unpack _); by vm_compute)
                    ltac:(discriminate) ltac:(discriminate) eq_refl)).
    + apply (bool_decide_unpack _). by vm_compute.
    + apply (bool_decide_unpack _). by vm_compute.
Defined.

(** ** The resolvers keep the constraints of the schema *)

Lemma store_ok_insert_user s u :
  store_ok s →
  user_id u ∉ (user_id <$> userTable s) →
  find_user_by_email (user_email u) (userTable s) = None →
  store_ok (insert_user u s).
Proof.
  intros [Hids Hmails Hevents Hrefs] Hid Hmail. split; simpl.
  - rewrite fmap_app. apply NoDup_app. split; [done|]. split.
    + intros x Hx [->|[]%elem_of_nil]%elem_of_cons. done.
    + apply NoDup_singleton.
  - rewrite fmap_app. apply NoDup_app. split; [done|]. split.
    + intros x (v & -> & Hv)%list_elem_of_fmap [Heq|[]%elem_of_nil]%elem_of_cons.
      rewrite find_user_by_email_None in Hmail. by destruct (Hmail v Hv).
    + apply NoDup_singleton.
  - done.
  - by apply referential_insert_user.
Qed.

Lemma store_ok_seeded : store_ok seeded.
Proof.
  split; try (apply (bool_decide_unpack _); by vm_compute).
  apply referential_seeded.
Qed.

Lemma store_ok_resolvers (cuid : list string → string) w :
  generates_fresh cuid → store_ok (db w) →
  (∀ email, store_ok (db (me cuid email w).2))
  ∧ (∀ eid email, store_ok (db (joinEvent cuid eid email w).2))
  ∧ (∀ eid email, store_ok (db (leaveEvent eid email w).2)).
Proof.
  intros Hfresh Hok. split; [|split].
  - intros email.
    destruct (decide (email = "")) as [->|Hm];
      [by rewrite me_invalid by (by left)|].
    destruct (includes "@" email) eqn:Hat;
      [|by rewrite me_invalid by (by right)].
    destruct (find_user_by_email email (userTable (db w))) as [u|] eqn:Hu.
    + by rewrite (me_existing cuid email w u).
    + rewrite (me_new cuid email w Hm Hat Hu).
      apply store_ok_insert_user; [done|apply Hfresh|done].
  - intros eid email.
    pose proof (referential_joinEvent cuid w eid email (ok_refs _ Hok)) as Hrefs.
    destruct (route_total (db w) eid email)
      as [Hbad|He Hm Hr|r u He Hm Hr Hu|r He Hm Hr Hu].
    + by rewrite (joinEvent_invalid cuid eid email w Hbad).
    + by rewrite (joinEvent_not_found cuid eid email w He Hm Hr).
    + destruct (decide (attending (db w) eid email)) as [Ha|Ha].
      * by rewrite (joinEvent_member cuid eid email w r He Hm Hr Ha).
      * rewrite (joinEvent_known_user cuid eid email w r u He Hm Hr Hu Ha)
          in Hrefs |- *.
        destruct Hok. by split.
    + rewrite (joinEvent_new_user cuid eid email w r He Hm Hr Hu)
        in Hrefs |- *.
      cbn [snd db] in *.
      pose proof (store_ok_insert_user (db w)
                    {| user_id := cuid (user_id <$> userTable (db w));
                       user_name := first_part (split "@" email);
                       user_email := email |} Hok (Hfresh _) Hu) as [].
      by split.
  - intros eid email.
    pose proof (referential_leaveEvent w eid email (ok_refs _ Hok)) as Hrefs.
    destruct (route_total (db w) eid email)
      as [Hbad|He Hm Hr|r u He Hm Hr Hu|r He Hm Hr Hu].
    + by rewrite (leaveEvent_invalid eid email w Hbad).
    + by rewrite (leaveEvent_not_found eid email w He Hm Hr).
    + destruct (decide (attending (db w) eid email)) as [Ha|Ha].
      * rewrite (leaveEvent_member eid email w r u He Hm Hr Hu Ha)
          in Hrefs |- *.
        destruct Hok. by split.
      * by rewrite (leaveEvent_not_member eid email w r u He Hm Hr Hu Ha).
    + by rewrite (leaveEvent_user_not_found eid email w r He Hm Hr Hu).
Qed.

(** The schema's constraints are an invariant of the three writing
    resolvers: from a database with unique user ids, unique addresses,
    unique event ids and no dangling membership, and with an id
    generator that returns new ids, [me], [joinEvent] and [leaveEvent]
    lead, on every input and whatever their outcome, to a database
    with the same four properties. *)
Theorem resolvers_keep_constraints (cuid : list string → string) w :
  generates_fresh cuid → store_ok (db w) →
  (∀ email, store_ok (db (me cuid email w).2))
  ∧ (∀ eid email, store_ok (db (joinEvent cuid eid email w).2))
  ∧ (∀ eid email, store_ok (db (leaveEvent eid email w).2)).
Proof. apply store_ok_resolvers. Qed.

Lemma resolvers_keep_constraints_witness :
  store_ok (db (me longer_cuid "new@x.com" seeded_world).2)
  ∧ store_ok (db (joinEvent longer_cuid "ce3" "new@x.com" seeded_world).2)
  ∧ store_ok (db (leaveEvent "ce1" "alice@example.com" seeded_world).2).
Proof.
  destruct (resolvers_keep_constraints longer_cuid seeded_world
              longer_cuid_fresh store_ok_seeded) as (Hme & Hjoin & Hleave).
  split; [apply Hme|]. split; [apply Hjoin | apply Hleave].
Defined.

(** ** [me] beside the mutations *)

(** [me] is idempotent and touches nothing but the user table: a
    second call in sequence returns what the first returned and writes
    nothing; whatever the outcome, events, memberships and emissions
    are as before and the old user table is a prefix of the new one;
    and, when the database has no dangling membership and the id
    generator returns new ids, no event's attendee list changes. *)
Theorem me_idempotent_frame (cuid : list string → string) w email :
  let once := me cuid email w in
  me cuid email once.2 = once
  ∧ eventTable (db once.2) = eventTable (db w)
  ∧ userEvents (db once.2) = userEvents (db w)
  ∧ emitted once.2 = emitted w
  ∧ userTable (db w) `prefix_of` userTable (db once.2)
  ∧ (generates_fresh cuid → referential (db w) →
     ∀ eid, attendees_of (db once.2) eid = attendees_of (db w) eid).
Proof.
  cbv zeta.
  destruct (decide (email = "")) as [->|Hm].
  { rewrite !(me_invalid cuid "" w) by (by left). simpl.
    by rewrite (me_invalid cuid "" w) by (by left). }
  destruct (includes "@" email) eqn:Hat; cycle 1.
  { rewrite !(me_invalid cuid email w) by (by right). simpl.
    by rewrite (me_invalid cuid email w) by (by right). }
  destruct (find_user_by_email email (userTable (db w))) as [u|] eqn:Hu.
  - rewrite !(me_existing cuid email w u) by done. simpl.
    by rewrite (me_existing cuid email w u).
  - rewrite !(me_new cuid email w Hm Hat Hu). cbn [fst snd db emitted].
    set (u := {| user_id := cuid (user_id <$> userTable (db w));
                 user_name :=
                   or_else (strip_non_alnum (first_part (split "@" email)))
                           "User";
                 user_email := email |}).
    split.
    { rewrite (me_existing cuid email _ u Hm Hat); [done|].
      by apply find_user_by_email_app_new. }
    repeat split; try done.
    + by apply prefix_app_r.
    + intros Hfresh Href eid. apply attendees_of_insert_user.
      intros Hp. destruct (Href _ _ Hp) as [_ Hin].
      by apply (Hfresh (user_id <$> userTable (db w))).
Qed.

Lemma me_idempotent_frame_witness :
  (∀ eid, attendees_of (db (me longer_cuid "new@x.com" seeded_world).2) eid
          = attendees_of seeded eid)
  ∧ me longer_cuid "new@x.com" (me longer_cuid "new@x.com" seeded_world).2
    = me longer_cuid "new@x.com" seeded_world.
Proof.
  destruct (me_idempotent_frame longer_cuid seeded_world "new@x.com")
    as (Hagain & _ & _ & _ & _ & Hlists).
  split; [|exact Hagain].
  exact (Hlists longer_cuid_fresh referential_seeded).
Defined.

(** Whoever sees an address first names the user for good.  After
    [me] has succeeded for an address, [joinEvent] for it adds no user
    row, so the name stays the stripped one; after [joinEvent] has
    returned for an address that contains '@', [me] returns a stored
    user with that address and writes nothing, and if [joinEvent] had
    to create the user, [me] reports the unstripped name. *)
Theorem first_caller_names_user (cuid : list string → string) w eid email :
  (∀ user, (me cuid email w).1 = Returned user →
     userTable (db (joinEvent cuid eid email (me cuid email w).2).2)
     = userTable (db (me cuid email w).2))
  ∧ (∀ event, (joinEvent cuid eid email w).1 = Returned event →
       includes "@" email = true →
       let joined := (joinEvent cuid eid email w).2 in
       ∃ user,
         me cuid email joined = (Returned user, joined)
         ∧ user_email user = email
         ∧ (find_user_by_email email (userTable (db w)) = None →
            user_name user = first_part (split "@" email))).
Proof.
  split.
  - intros user Hme.
    assert (∃ w', me cuid email w = (Returned user, w')
                  ∧ find_user_by_email email (userTable (db w')) = Some user)
      as (w' & Hrun & Hfind).
    { destruct (decide (email = "")) as [->|Hm];
        [by rewrite me_invalid in Hme by (by left)|].
      destruct (includes "@" email) eqn:Hat;
        [|by rewrite me_invalid in Hme by (by right)].
      destruct (find_user_by_email email (userTable (db w))) as [u|] eqn:Hu.
      - rewrite (me_existing cuid email w u Hm Hat Hu) in Hme |- *.
        injection Hme as ->. eauto.
      - rewrite (me_new cuid email w Hm Hat Hu) in Hme |- *.
        injection Hme as <-. eexists. split; [reflexivity|].
        by apply find_user_by_email_app_new. }
    rewrite Hrun. cbn [snd].
    destruct (route_total (db w') eid email)
      as [Hbad|He Hm Hr|r u He Hm Hr Hu|r He Hm Hr Hu].
    + by rewrite (joinEvent_invalid cuid eid email w' Hbad).
    + by rewrite (joinEvent_not_found cuid eid email w' He Hm Hr).
    + destruct (decide (attending (db w') eid email)) as [Ha|Ha].
      * by rewrite (joinEvent_member cuid eid email w' r He Hm Hr Ha).
      * by rewrite (joinEvent_known_user cuid eid email w' r u He Hm Hr Hu Ha).
    + congruence.
  - intros event Hjoin Hat. cbv zeta.
    destruct (route_total (db w) eid email)
      as [Hbad|He Hm Hr|r u He Hm Hr Hu|r He Hm Hr Hu].
    + by rewrite (joinEvent_invalid cuid eid email w Hbad) in Hjoin.
    + by rewrite (joinEvent_not_found cuid eid email w He Hm Hr) in Hjoin.
    + destruct (find_user_by_email_Some _ _ _ Hu) as [_ Hmail].
      exists u.
      destruct (decide (attending (db w) eid email)) as [Ha|Ha].
      * rewrite (joinEvent_member cuid eid email w r He Hm Hr Ha). cbn [snd].
        rewrite (me_existing cuid email w u Hm Hat Hu).
        split; [done|]. split; [done|]. congruence.
      * rewrite (joinEvent_known_user cuid eid email w r u He Hm Hr Hu Ha).
        cbn [snd]. erewrite me_existing; [|done|done|exact Hu].
        split; [done|]. split; [done|]. congruence.
    + rewrite (joinEvent_new_user cuid eid email w r He Hm Hr Hu). cbn [snd].
      exists {| user_id := cuid (user_id <$> userTable (db w));
                user_name := first_part (split "@" email);
                user_email := email |}.
      erewrite me_existing;
        [|done|done|by apply find_user_by_email_app_new]. by repeat split.
Qed.

Lemma first_caller_names_user_witness :
  userTable (db (joinEvent longer_cuid "ce3" "a.b@x.com"
                   (me longer_cuid "a.b@x.com" seeded_world).2).2)
  = userTable seeded ++ [mkUser "cu1cu2cu3c" "ab" "a.b@x.com"]
  ∧ ∃ user,
      me longer_cuid "a.b@x.com"
        (joinEvent longer_cuid "ce3" "a.b@x.com" seeded_world).2
      = (Returned user,
         (joinEvent longer_cuid "ce3" "a.b@x.com" seeded_world).2)
      ∧ user_name user = "a.b".
Proof.
  destruct (first_caller_names_user longer_cuid seeded_world
              "ce3" "a.b@x.com") as [Hme Hjoin].
  split.
  - rewrite (Hme (mkUser "cu1cu2cu3c" "ab" "a.b@x.com") eq_refl).
    reflexivity.
  - destruct (Hjoin (mkEvent "ce3" "Food Fair" "Main Street" 1735128000000
                       [mkUser "cu1cu2cu3c" "a.b" "a.b@x.com"])
                eq_refl eq_refl) as (user & Hrun & _ & Hname).
    exists user. split; [exact Hrun|]. by rewrite Hname.
Defined.

(** The [events] query shows what a mutation returned: after
    [joinEvent] or [leaveEvent] has returned an event, the list that
    [events] gives on the resulting world contains that very event,
    attendees included. *)
Theorem events_shows_mutation (cuid : list string → string) w eid email :
  (∀ event, (joinEvent cuid eid email w).1 = Returned event →
     ∃ listed,
       (events (joinEvent cuid eid email w).2).1 = Returned listed
       ∧ event ∈ listed)
  ∧ (∀ event, (leaveEvent eid email w).1 = Returned event →
       ∃ listed,
         (events (leaveEvent eid email w).2).1 = Returned listed
         ∧ event ∈ listed).
Proof.
  assert (∀ s r, r ∈ eventTable s →
            include_attendees s r
            ∈ merge_sort startTime_le (include_attendees s <$> eventTable s))
    as Hlisted.
  { intros s r Hr. rewrite merge_sort_Permutation.
    by apply list_elem_of_fmap_2. }
  split; intros event;
    destruct (route_total (db w) eid email)
      as [Hbad|He Hm Hr|r u He Hm Hr Hu|r He Hm Hr Hu].
  - by rewrite (joinEvent_invalid cuid eid email w Hbad).
  - by rewrite (joinEvent_not_found cuid eid email w He Hm Hr).
  - destruct (find_row_Some _ _ _ Hr) as [Hin _].
    destruct (decide (attending (db w) eid email)) as [Ha|Ha].
    + rewrite (joinEvent_member cuid eid email w r He Hm Hr Ha).
      intros [= <-]. eexists. split; [reflexivity|]. by apply Hlisted.
    + rewrite (joinEvent_known_user cuid eid email w r u He Hm Hr Hu Ha).
      intros [= <-]. eexists. split; [reflexivity|].
      by apply (Hlisted (connect _ _ _)).
  - destruct (find_row_Some _ _ _ Hr) as [Hin _].
    rewrite (joinEvent_new_user cuid eid email w r He Hm Hr Hu).
    intros [= <-]. eexists. split; [reflexivity|].
    by apply (Hlisted (connect _ _ _)).
  - by rewrite (leaveEvent_invalid eid email w Hbad).
  - by rewrite (leaveEvent_not_found eid email w He Hm Hr).
  - destruct (find_row_Some _ _ _ Hr) as [Hin _].
    destruct (decide (attending (db w) eid email)) as [Ha|Ha].
    + rewrite (leaveEvent_member eid email w r u He Hm Hr Hu Ha).
      intros [= <-]. eexists. split; [reflexivity|].
      by apply (Hlisted (disconnect _ _ _)).
    + rewrite (leaveEvent_not_member eid email w r u He Hm Hr Hu Ha).
      intros [= <-]. eexists. split; [reflexivity|]. by apply Hlisted.
  - by rewrite (leaveEvent_user_not_found eid email w r He Hm Hr Hu).
Qed.

Lemma events_shows_mutation_witness :
  ∃ listed,
    (events (joinEvent longer_cuid "ce3" "a@x.com" seeded_world).2).1
    = Returned listed
    ∧ mkEvent "ce3" "Food Fair" "Main Street" 1735128000000 [newcomer]
      ∈ listed.
Proof.
  apply (proj1 (events_shows_mutation longer_cuid seeded_world
                  "ce3" "a@x.com")).
  reflexivity.
Defined.

(** * The seeding script *)

(** The six orders in which three calls can be executed. *)
Lemma orders_of_three (order : list nat) :
  order ≡ₚ [0; 1; 2]%nat →
  order ∈ [[0; 1; 2]; [0; 2; 1]; [1; 0; 2]; [1; 2; 0]; [2; 0; 1]; [2; 1; 0]]%nat.
Proof.
  intros Hperm.
  pose proof (Permutation_length Hperm) as Hlen.
  destruct order as [|x [|y [|z [|]]]]; try done.
  assert (NoDup [x; y; z]) as Hnd.
  { rewrite Hperm. repeat (apply NoDup_cons; split); [set_solver..|apply NoDup_nil_2]. }
  assert (x ∈ [0; 1; 2]%nat ∧ y ∈ [0; 1; 2]%nat ∧ z ∈ [0; 1; 2]%nat)
    as (Hx & Hy & Hz) by (rewrite <- Hperm; set_solver).
  apply NoDup_cons in Hnd as [Hxy Hnd]. apply NoDup_cons in Hnd as [Hyz _].
  set_unfold.
  destruct Hx as [->|[->|[->|[]]]], Hy as [->|[->|[->|[]]]],
    Hz as [->|[->|[->|[]]]]; naive_solver.
Qed.

(** The three user creations, in any order, on an empty user table. *)
Lemma seed_users_phase (cuid : list string → string) order es ue em :
  order ≡ₚ [0; 1; 2]%nat →
  ∃ a b c table,
    let ua := mkUser a "Alice Johnson" "alice@example.com" in
    let ub := mkUser b "Bob Smith" "bob@example.com" in
    let uc := mkUser c "Charlie Brown" "charlie@example.com" in
    promise_all order
      [prisma_user_create cuid "alice@example.com" "Alice Johnson";
       prisma_user_create cuid "bob@example.com" "Bob Smith";
       prisma_user_create cuid "charlie@example.com" "Charlie Brown"]
      {| db := {| userTable := []; eventTable := es; userEvents := ue |};
         emitted := em |}
    = (Returned [ua; ub; uc],
       {| db := {| userTable := table; eventTable := es; userEvents := ue |};
          emitted := em |})
    ∧ table ≡ₚ [ua; ub; uc]
    ∧ [a; b; c] ≡ₚ [cuid []; cuid [cuid []]; cuid [cuid []; cuid [cuid []]]].
Proof.
  intros Horder%orders_of_three.
  set_unfold.
  destruct Horder as [->|[->|[->|[->|[->|[->|[]]]]]]].
  all: do 4 eexists; cbv zeta; (split; [reflexivity|]); split; perm3.
Qed.

Lemma bind_returned {A B} (m : Resolver A) (k : A → Resolver B) w a w' :
  m w = (Returned a, w') → (m ≫= k) w = k a w'.
Proof. intros Hm. unfold mbind, resolver_bind. by rewrite Hm. Qed.

Lemma settle_cons {A} (promises : list (Resolver A)) i later
    (p : Resolver A) w a w' settled w'' :
  promises !! i = Some p →
  p w = (Returned a, w') →
  settle promises later w' = (Returned settled, w'') →
  settle promises (i :: later) w = (Returned ((i, a) :: settled), w'').
Proof.
  intros Hp Hrun Hlater. simpl. rewrite Hp.
  erewrite bind_returned by exact Hrun.
  by erewrite bind_returned by exact Hlater.
Qed.

(** An event creation whose users to connect all exist. *)
Lemma prisma_event_create_connected (event_cuid : list string → string)
    name location startTime connects (promise : Resolver EventRow) w :
  promise w
  = prisma_event_create event_cuid name location startTime connects w →
  Forall (λ uid, is_Some (find_user_by_id uid (userTable (db w)))) connects →
  promise w
  = (Returned (mkEventRow (event_cuid (row_id <$> eventTable (db w)))
                 name location startTime),
     set_db {| userTable := userTable (db w);
               eventTable :=
                 eventTable (db w)
                 ++ [mkEventRow (event_cuid (row_id <$> eventTable (db w)))
                       name location startTime];
               userEvents :=
                 list_to_set
                   ((λ uid, (event_cuid (row_id <$> eventTable (db w)), uid))
                    <$> connects)
                 ∪ userEvents (db w) |} w).
Proof.
  intros -> Hall. unfold prisma_event_create.
  assert (forallb (λ uid, bool_decide
                            (is_Some (find_user_by_id uid (userTable (db w)))))
                  connects = true) as ->; [|done].
  apply forallb_forall. intros uid Hin%list_elem_of_In.
  rewrite Forall_forall in Hall. by apply bool_decide_eq_true, Hall.
Qed.

(** The three event creations, in any order, on an empty event table
    and a user table that holds Alice and Bob. *)
Lemma seed_events_phase (event_cuid : list string → string) order
    (a b c : string) table em :
  order ≡ₚ [0; 1; 2]%nat →
  let ua := mkUser a "Alice Johnson" "alice@example.com" in
  let ub := mkUser b "Bob Smith" "bob@example.com" in
  let uc := mkUser c "Charlie Brown" "charlie@example.com" in
  ua ∈ table → ub ∈ table →
  ∃ e1 e2 e3 rows ue,
    let r1 := mkEventRow e1 "Tech Meetup" "Downtown Hall" 1734717600000 in
    let r2 := mkEventRow e2 "Music Festival" "City Park" 1734879600000 in
    let r3 := mkEventRow e3 "Food Fair" "Main Street" 1735128000000 in
    promise_all order
      [(u0 ← id_at [ua; ub; uc] 0; u1 ← id_at [ua; ub; uc] 1;
        prisma_event_create event_cuid
          "Tech Meetup" "Downtown Hall" 1734717600000 [u0; u1]);
       (u0 ← id_at [ua; ub; uc] 0;
        prisma_event_create event_cuid
          "Music Festival" "City Park" 1734879600000 [u0]);
       prisma_event_create event_cuid
         "Food Fair" "Main Street" 1735128000000 []]
      {| db := {| userTable := table; eventTable := []; userEvents := ∅ |};
         emitted := em |}
    = (Returned [r1; r2; r3],
       {| db := {| userTable := table; eventTable := rows; userEvents := ue |};
          emitted := em |})
    ∧ rows ≡ₚ [r1; r2; r3]
    ∧ (∀ s, merge_sort startTime_le (include_attendees s <$> rows)
            = include_attendees s <$> [r1; r2; r3])
    ∧ ue = {[ (e1, a); (e1, b); (e2, a) ]}
    ∧ [e1; e2; e3]
      ≡ₚ [event_cuid []; event_cuid [event_cuid []];
          event_cuid [event_cuid []; event_cuid [event_cuid []]]].
Proof.
  intros Horder%orders_of_three ua ub uc Hua Hub.
  assert (∀ w0 : World, userTable (db w0) = table →
            is_Some (find_user_by_id a (userTable (db w0)))) as Ha.
  { intros w0 ->. by apply (find_user_by_id_is_Some table ua). }
  assert (∀ w0 : World, userTable (db w0) = table →
            is_Some (find_user_by_id b (userTable (db w0)))) as Hb.
  { intros w0 ->. by apply (find_user_by_id_is_Some table ub). }
  set_unfold.
  destruct Horder as [->|[->|[->|[->|[->|[->|[]]]]]]].
  all: do 5 eexists; cbv zeta; split;
    [ unfold promise_all;
      erewrite bind_returned;
      [| repeat (eapply settle_cons;
                 [ reflexivity
                 | eapply (prisma_event_create_connected event_cuid);
                   [ reflexivity
                   | repeat constructor; first [by apply Ha | by apply Hb] ]
                 | ]);
         reflexivity ];
      reflexivity
    | split; [perm3|]; split; [intros s; reflexivity|]; split; [|perm3] ].
  all: cbn [db eventTable fmap list_fmap row_id app]; set_solver.
Qed.

Lemma fresh_three (g : list string → string) :
  generates_fresh g → NoDup [g []; g [g []]; g [g []; g [g []]]].
Proof.
  intros Hfresh.
  pose proof (Hfresh [g []]) as H1. pose proof (Hfresh [g []; g [g []]]) as H2.
  repeat (apply NoDup_cons; split); [set_solver..|apply NoDup_nil_2].
Qed.

(** The attendee lists of the seeded relation. *)
Lemma seed_lists (a b c e1 e2 e3 : string) table rows :
  NoDup [a; b; c] → NoDup [e1; e2; e3] →
  let ua := mkUser a "Alice Johnson" "alice@example.com" in
  let ub := mkUser b "Bob Smith" "bob@example.com" in
  let uc := mkUser c "Charlie Brown" "charlie@example.com" in
  table ≡ₚ [ua; ub; uc] →
  let s := {| userTable := table; eventTable := rows;
              userEvents := {[ (e1, a); (e1, b); (e2, a) ]} |} in
  attendees_of s e1 ≡ₚ [ua; ub]
  ∧ attendees_of s e2 = [ua]
  ∧ attendees_of s e3 = [].
Proof.
  intros Hids Heids ua ub uc Hperm s.
  apply NoDup_cons in Hids as [Hab Hids]. apply NoDup_cons in Hids as [Hbc _].
  apply NoDup_cons in Heids as [He12 Heids].
  apply NoDup_cons in Heids as [He23 _].
  assert (∀ e, attendees_of s e
               ≡ₚ filter (λ u, (e, user_id u) ∈ userEvents s) [ua; ub; uc])
    as Hfilter by (intros e; unfold attendees_of; simpl; by rewrite Hperm).
  split; [|split].
  - rewrite Hfilter. simpl. rewrite !filter_cons, !filter_nil. simpl.
    repeat case_decide; try done; exfalso; set_solver.
  - apply Permutation_singleton_r. rewrite Hfilter. simpl.
    rewrite !filter_cons, !filter_nil. simpl.
    repeat case_decide; try done; exfalso; set_solver.
  - apply Permutation_nil_r. rewrite Hfilter. simpl.
    rewrite !filter_cons, !filter_nil. simpl.
    repeat case_decide; try done; exfalso; set_solver.
Qed.

(** Seeding resets any database to the sample data.  Whatever the
    database held, whatever the orders in which the database executes
    the three user creations and the three event creations, and with
    id generators that return new ids, [seed] returns and emits
    nothing; the user table then holds exactly Alice, Bob and Charlie
    under pairwise different ids, the event table exactly the three
    events under pairwise different ids, the join table relates Tech
    Meetup to Alice and Bob and Music Festival to Alice and nothing
    else, the constraints of the schema hold, and [events] lists Tech
    Meetup with Alice and Bob (in table order), Music Festival with
    Alice, and Food Fair with nobody, in that order. *)
Theorem seed_resets (cuid event_cuid : list string → string)
    (user_order event_order : list nat) w :
  generates_fresh cuid → generates_fresh event_cuid →
  user_order ≡ₚ [0; 1; 2]%nat → event_order ≡ₚ [0; 1; 2]%nat →
  let after := seed cuid event_cuid user_order event_order w in
  ∃ a b c e1 e2 e3,
    let ua := mkUser a "Alice Johnson" "alice@example.com" in
    let ub := mkUser b "Bob Smith" "bob@example.com" in
    let uc := mkUser c "Charlie Brown" "charlie@example.com" in
    NoDup [a; b; c] ∧ NoDup [e1; e2; e3]
    ∧ after.1 = Returned tt
    ∧ emitted after.2 = emitted w
    ∧ userTable (db after.2) ≡ₚ [ua; ub; uc]
    ∧ eventTable (db after.2)
      ≡ₚ [mkEventRow e1 "Tech Meetup" "Downtown Hall" 1734717600000;
          mkEventRow e2 "Music Festival" "City Park" 1734879600000;
          mkEventRow e3 "Food Fair" "Main Street" 1735128000000]
    ∧ userEvents (db after.2) = {[ (e1, a); (e1, b); (e2, a) ]}
    ∧ store_ok (db after.2)
    ∧ ∃ tech,
        tech ≡ₚ [ua; ub]
        ∧ events after.2
          = (Returned
               [mkEvent e1 "Tech Meetup" "Downtown Hall" 1734717600000 tech;
                mkEvent e2 "Music Festival" "City Park" 1734879600000 [ua];
                mkEvent e3 "Food Fair" "Main Street" 1735128000000 []],
             after.2).
Proof.
  intros Hfresh Hefresh Huorder Heorder. cbv zeta.
  destruct (seed_users_phase cuid user_order [] ∅ (emitted w) Huorder)
    as (a & b & c & table & Husers & Htable & Hids).
  assert (mkUser a "Alice Johnson" "alice@example.com" ∈ table
          ∧ mkUser b "Bob Smith" "bob@example.com" ∈ table) as [Hua Hub]
    by (rewrite Htable; set_solver).
  destruct (seed_events_phase event_cuid event_order a b c table (emitted w)
              Heorder Hua Hub)
    as (e1 & e2 & e3 & rows & ue & Hevents & Hrows & Hsorted & -> & Heids).
  exists a, b, c, e1, e2, e3.
  assert (NoDup [a; b; c]) as Hnd
    by (rewrite Hids; by apply fresh_three).
  assert (NoDup [e1; e2; e3]) as Hend
    by (rewrite Heids; by apply fresh_three).
  assert (seed cuid event_cuid user_order event_order w
          = (Returned tt,
             {| db := {| userTable := table; eventTable := rows;
                         userEvents := {[ (e1, a); (e1, b); (e2, a) ]} |};
                emitted := emitted w |})) as ->.
  { unfold seed.
    erewrite bind_returned by reflexivity.
    erewrite bind_returned by reflexivity.
    erewrite bind_returned by exact Husers.
    erewrite bind_returned by exact Hevents. reflexivity. }
  cbn [fst snd db emitted userTable eventTable userEvents].
  destruct (seed_lists a b c e1 e2 e3 table rows Hnd Hend Htable)
    as (Htech & Hmusic & Hfood).
  split; [done|]. split; [done|]. split; [done|]. split; [done|].
  split; [done|]. split; [done|]. split; [done|]. split.
  - split; cbn [userTable eventTable userEvents].
    + by rewrite Htable.
    + rewrite Htable. apply (bool_decide_unpack _). by vm_compute.
    + by rewrite Hrows.
    + intros e u Hp. cbn [userTable eventTable userEvents] in *.
      rewrite Hrows, Htable. set_solver.
  - eexists. split; [exact Htech|].
    unfold events, try_catch, prisma_event_findMany, mbind, resolver_bind,
      mret, resolver_ret.
    cbn [db eventTable]. rewrite Hsorted.
    cbn [fmap list_fmap]. unfold include_attendees at 1 2 3.
    cbn [row_id row_name row_location row_startTime].
    by rewrite Hmusic, Hfood.
Qed.


Lemma seed_resets_witness :
  let after := seed longer_cuid longer_cuid [1; 0; 2]%nat [2; 1; 0]%nat
                 seeded_world in
  ∃ a b e1 e2 e3 tech,
    userEvents (db after.2) = {[ (e1, a); (e1, b); (e2, a) ]}
    ∧ tech ≡ₚ [mkUser a "Alice Johnson" "alice@example.com";
               mkUser b "Bob Smith" "bob@example.com"]
    ∧ events after.2
      = (Returned
           [mkEvent e1 "Tech Meetup" "Downtown Hall" 1734717600000 tech;
            mkEvent e2 "Music Festival" "City Park" 1734879600000
              [mkUser a "Alice Johnson" "alice@example.com"];
            mkEvent e3 "Food Fair" "Main Street" 1735128000000 []],
         after.2).
Proof.
  cbv zeta.
  destruct (seed_resets longer_cuid longer_cuid [1; 0; 2]%nat [2; 1; 0]%nat
              seeded_world longer_cuid_fresh longer_cuid_fresh
              ltac:(perm3) ltac:(perm3))
    as (a & b & c & e1 & e2 & e3 & _ & _ & _ & _ & _ & _ & Hrel & _
        & tech & Htech & Hevents).
  exists a, b, e1, e2, e3, tech.
  split; [exact Hrel|]. split; [exact Htech | exact Hevents].
Defined.

(** A run in which Bob is created before Alice, and the events in
    reverse: the rows lie in the order of creation, the relation and
    the listing are the same. *)
Example seed_out_of_order :
  let after := seed longer_cuid longer_cuid [1; 0; 2]%nat [2; 1; 0]%nat
                 seeded_world in
  userTable (db after.2)
  = [mkUser "c" "Bob Smith" "bob@example.com";
     mkUser "cc" "Alice Johnson" "alice@example.com";
     mkUser "cccc" "Charlie Brown" "charlie@example.com"]
  ∧ eventTable (db after.2)
    = [mkEventRow "c" "Food Fair" "Main Street" 1735128000000;
       mkEventRow "cc" "Music Festival" "City Park" 1734879600000;
       mkEventRow "cccc" "Tech Meetup" "Downtown Hall" 1734717600000]
  ∧ (events after.2).1
    = Returned
        [mkEvent "cccc" "Tech Meetup" "Downtown Hall" 1734717600000
           [mkUser "c" "Bob Smith" "bob@example.com";
            mkUser "cc" "Alice Johnson" "alice@example.com"];
         mkEvent "cc" "Music Festival" "City Park" 1734879600000
           [mkUser "cc" "Alice Johnson" "alice@example.com"];
         mkEvent "c" "Food Fair" "Main Street" 1735128000000 []].
Proof. by vm_compute. Qed.

(** * Rooms and what the sockets are handed *)

Lemma room_name_inj eid eid' :
  "event-" +:+ eid = "event-" +:+ eid' → eid = eid'.
Proof. simpl. by intros [= Heq]. Qed.

Lemma receives_connected conns sid rooms e :
  conns !! sid = Some rooms →
  receives conns sid e
  = match e with
    | ToRoom room _ _ => bool_decide (room ∈ rooms)
    | ToAll _ _ => true
    end.
Proof. intros Hs. unfold receives. by rewrite Hs. Qed.

Lemma inbox_membership_messages (conns : Connections) sid rooms
    name eid u atts es :
  conns !! sid = Some rooms →
  inbox conns sid (es ++ membership_messages name eid u atts)
  = inbox conns sid es
    ++ (if decide ("event-" +:+ eid ∈ rooms)
        then [ToRoom ("event-" +:+ eid) name (JoinEventPayload eid u atts)]
        else [])
    ++ [ToAll "eventUpdated" (EventUpdatedPayload eid atts)].
Proof.
  intros Hs. unfold inbox, membership_messages.
  rewrite List.filter_app. f_equal. cbn [List.filter].
  rewrite !(receives_connected conns sid rooms) by done.
  destruct (decide ("event-" +:+ eid ∈ rooms)) as [Hin|Hin].
  - by rewrite bool_decide_eq_true_2.
  - by rewrite bool_decide_eq_false_2.
Qed.

(** The room handlers.  For a connected socket: after [joinEventRoom]
    for an event it is handed what goes to that event's room, after
    [leaveEventRoom] it is not; either way what it is handed for the
    rooms of other events, and what any other socket is handed, is as
    before, and broadcasts to everyone still reach it. *)
Theorem room_subscription (conns : Connections) sid eid rooms :
  conns !! sid = Some rooms →
  let subscribed := on_joinEventRoom sid eid conns in
  let unsubscribed := on_leaveEventRoom sid eid conns in
  (∀ name p,
     receives subscribed sid (ToRoom ("event-" +:+ eid) name p) = true
     ∧ receives unsubscribed sid (ToRoom ("event-" +:+ eid) name p) = false
     ∧ receives subscribed sid (ToAll name p) = true
     ∧ receives unsubscribed sid (ToAll name p) = true)
  ∧ (∀ eid' name p, eid' ≠ eid →
       receives subscribed sid (ToRoom ("event-" +:+ eid') name p)
       = receives conns sid (ToRoom ("event-" +:+ eid') name p)
       ∧ receives unsubscribed sid (ToRoom ("event-" +:+ eid') name p)
         = receives conns sid (ToRoom ("event-" +:+ eid') name p))
  ∧ (∀ sid' e, sid' ≠ sid →
       receives subscribed sid' e = receives conns sid' e
       ∧ receives unsubscribed sid' e = receives conns sid' e).
Proof.
  intros Hs. cbv zeta. unfold on_joinEventRoom, on_leaveEventRoom.
  split; [|split].
  - intros name p. unfold receives.
    rewrite !lookup_alter_eq, Hs. simpl.
    rewrite bool_decide_eq_true_2 by set_solver.
    by rewrite bool_decide_eq_false_2 by set_solver.
  - intros eid' name p Hne. unfold receives.
    rewrite !lookup_alter_eq, Hs. simpl.
    assert ("event-" +:+ eid' ≠ "event-" +:+ eid)
      by (by intros ?%room_name_inj).
    split; apply bool_decide_ext; set_solver.
  - intros sid' e Hne. unfold receives.
    by rewrite !lookup_alter_ne by done.
Qed.

Lemma room_subscription_witness :
  let conns : Connections := on_connection "s1" (on_connection "s2" ∅) in
  receives (on_joinEventRoom "s1" "ce1" conns) "s1"
    (ToRoom "event-ce1" "userJoined" (EventUpdatedPayload "ce1" [])) = true
  ∧ receives (on_leaveEventRoom "s1" "ce1"
                (on_joinEventRoom "s1" "ce1" conns)) "s1"
      (ToRoom "event-ce1" "userJoined" (EventUpdatedPayload "ce1" [])) = false.
Proof.
  cbv zeta.
  assert (on_connection "s1" (on_connection "s2" ∅) !! "s1"
          = Some ({[ "s1" ]} : gset string)) as Hs
    by apply lookup_insert_eq.
  assert (on_joinEventRoom "s1" "ce1"
            (on_connection "s1" (on_connection "s2" ∅)) !! "s1"
          = Some ({[ "event-ce1" ]} ∪ {[ "s1" ]} : gset string)) as Hs'
    by (unfold on_joinEventRoom; by rewrite lookup_alter_eq, Hs).
  split.
  - apply (proj1 (room_subscription _ "s1" "ce1" _ Hs)
             "userJoined" (EventUpdatedPayload "ce1" [])).
  - apply (proj1 (room_subscription _ "s1" "ce1" _ Hs')
             "userJoined" (EventUpdatedPayload "ce1" [])).
Defined.

(** What a listener sees of a membership change.  Take a connected
    socket, an existing event and non-empty inputs.  When [joinEvent]
    adds a member, a socket that has sent [joinEventRoom] for the
    event is handed [userJoined] and then [eventUpdated], both with
    the attendee list after the join, and a socket that has sent
    [leaveEventRoom] is handed [eventUpdated] only.  The same holds of
    [userLeft] when [leaveEvent] removes a member.  A socket that is
    not connected is handed nothing. *)
Theorem membership_fan_out (cuid : list string → string) w eid email r
    (conns : Connections) sid rooms :
  eid ≠ "" → email ≠ "" →
  find_row eid (eventTable (db w)) = Some r →
  conns !! sid = Some rooms →
  let subscribed := on_joinEventRoom sid eid conns in
  let unsubscribed := on_leaveEventRoom sid eid conns in
  (¬ attending (db w) eid email →
   let after := (joinEvent cuid eid email w).2 in
   let attendees := attendees_of (db after) eid in
   ∃ user,
     user_email user = email
     ∧ inbox subscribed sid (emitted after)
       = inbox subscribed sid (emitted w)
         ++ [ToRoom ("event-" +:+ eid) "userJoined"
               (JoinEventPayload eid user attendees);
             ToAll "eventUpdated" (EventUpdatedPayload eid attendees)]
     ∧ inbox unsubscribed sid (emitted after)
       = inbox unsubscribed sid (emitted w)
         ++ [ToAll "eventUpdated" (EventUpdatedPayload eid attendees)])
  ∧ (attending (db w) eid email →
     let after := (leaveEvent eid email w).2 in
     let attendees := attendees_of (db after) eid in
     ∃ user,
       user_email user = email
       ∧ inbox subscribed sid (emitted after)
         = inbox subscribed sid (emitted w)
           ++ [ToRoom ("event-" +:+ eid) "userLeft"
                 (JoinEventPayload eid user attendees);
               ToAll "eventUpdated" (EventUpdatedPayload eid attendees)]
       ∧ inbox unsubscribed sid (emitted after)
         = inbox unsubscribed sid (emitted w)
           ++ [ToAll "eventUpdated" (EventUpdatedPayload eid attendees)])
  ∧ (∀ sid' es, conns !! sid' = None → inbox conns sid' es = []).
Proof.
  intros He Hm Hr Hs. cbv zeta.
  assert (on_joinEventRoom sid eid conns !! sid
          = Some ({[ "event-" +:+ eid ]} ∪ rooms)) as Hsub.
  { unfold on_joinEventRoom. by rewrite lookup_alter_eq, Hs. }
  assert (on_leaveEventRoom sid eid conns !! sid
          = Some (rooms ∖ {[ "event-" +:+ eid ]})) as Hunsub.
  { unfold on_leaveEventRoom. by rewrite lookup_alter_eq, Hs. }
  assert (∀ name u atts es,
            inbox (on_joinEventRoom sid eid conns) sid
              (es ++ membership_messages name eid u atts)
            = inbox (on_joinEventRoom sid eid conns) sid es
              ++ [ToRoom ("event-" +:+ eid) name (JoinEventPayload eid u atts);
                  ToAll "eventUpdated" (EventUpdatedPayload eid atts)]
            ∧ inbox (on_leaveEventRoom sid eid conns) sid
                (es ++ membership_messages name eid u atts)
              = inbox (on_leaveEventRoom sid eid conns) sid es
                ++ [ToAll "eventUpdated" (EventUpdatedPayload eid atts)])
    as Hboth.
  { intros name u atts es.
    rewrite (inbox_membership_messages _ _ _ _ _ _ _ _ Hsub),
      (inbox_membership_messages _ _ _ _ _ _ _ _ Hunsub).
    rewrite decide_True, decide_False by set_solver. done. }
  split; [|split].
  - intros Ha.
    destruct (find_user_by_email email (userTable (db w))) as [u|] eqn:Hu.
    + rewrite (joinEvent_known_user cuid eid email w r u He Hm Hr Hu Ha).
      destruct (find_user_by_email_Some _ _ _ Hu) as [_ Hmail].
      exists u. cbn [snd db emitted]. split; [done|]. apply Hboth.
    + rewrite (joinEvent_new_user cuid eid email w r He Hm Hr Hu).
      eexists. cbn [snd db emitted]. split; [|apply Hboth]. done.
  - intros Ha. destruct (attending_user_exists _ _ _ Ha) as [u Hu].
    rewrite (leaveEvent_member eid email w r u He Hm Hr Hu Ha).
    destruct (find_user_by_email_Some _ _ _ Hu) as [_ Hmail].
    exists u. cbn [snd db emitted]. split; [done|]. apply Hboth.
  - intros sid' es Hnone. unfold inbox.
    induction es as [|e es IH]; [done|]. cbn [List.filter].
    unfold receives at 1. by rewrite Hnone.
Qed.

Lemma membership_fan_out_witness :
  let conns : Connections := on_connection "s1" (on_connection "s2" ∅) in
  ∃ user,
    inbox (on_joinEventRoom "s1" "ce3" conns) "s1"
      (emitted (joinEvent longer_cuid "ce3" "a@x.com" seeded_world).2)
    = [ToRoom "event-ce3" "userJoined"
         (JoinEventPayload "ce3" user
            (attendees_of
               (db (joinEvent longer_cuid "ce3" "a@x.com" seeded_world).2)
               "ce3"));
       ToAll "eventUpdated"
         (EventUpdatedPayload "ce3"
            (attendees_of
               (db (joinEvent longer_cuid "ce3" "a@x.com" seeded_world).2)
               "ce3"))].
Proof.
  cbv zeta.
  assert (on_connection "s1" (on_connection "s2" ∅) !! "s1"
          = Some ({[ "s1" ]} : gset string)) as Hs
    by apply lookup_insert_eq.
  destruct (proj1 (membership_fan_out longer_cuid seeded_world
                     "ce3" "a@x.com" foodFair _ "s1" _
                     ltac:(discriminate) ltac:(discriminate) eq_refl Hs)
              ltac:(apply (bool_decide_unpack _); by vm_compute))
    as (user & _ & Hinbox & _).
  exists user. exact Hinbox.
Defined.

(** * The client *)

(** ** The login store *)

(** The store behind [MainApp]: in every state that presses of Login
    and Logout can reach from the initial one, being logged in means
    having a non-empty address and a non-empty name, and not being
    logged in means being in the initial state, so that pressing
    Logout always leads back to the login screen's initial state and
    pressing Login with an empty field changes nothing. *)
Theorem login_store_invariant (presses : list Press) :
  let st := foldl press initial_state presses in
  (isLoggedIn st = true → userEmail st ≠ "" ∧ userName st ≠ "")
  ∧ (isLoggedIn st = false → st = initial_state)
  ∧ press st PressLogout = initial_state
  ∧ (∀ email name, email = "" ∨ name = "" →
       press st (PressLogin email name) = st).
Proof.
  cbv zeta.
  assert ((isLoggedIn (foldl press initial_state presses) = true →
           userEmail (foldl press initial_state presses) ≠ ""
           ∧ userName (foldl press initial_state presses) ≠ "")
          ∧ (isLoggedIn (foldl press initial_state presses) = false →
             foldl press initial_state presses = initial_state)) as [Hin Hout].
  { induction presses as [|p presses IH] using rev_ind; [by split|].
    rewrite foldl_app. cbn [foldl].
    destruct p as [email name|]; cbn [press]; [|by split].
    unfold handleLogin.
    destruct (falsy email) eqn:He; [done|].
    destruct (falsy name) eqn:Hn; [done|]. simpl.
    split; [|done]. intros _. split; intros ->; done. }
  split; [done|]. split; [done|]. split; [done|].
  intros email name [->| ->]; cbn [press]; unfold handleLogin; [done|].
  by rewrite andb_false_r.
Qed.

Lemma login_store_invariant_witness :
  let st := foldl press initial_state
              [PressLogin "" "Alice"; PressLogin "alice@example.com" "Alice";
               PressLogout; PressLogin "bob@example.com" "Bob"] in
  userEmail st ≠ "" ∧ userName st ≠ "".
Proof.
  cbv zeta.
  apply (proj1 (login_store_invariant
                  [PressLogin "" "Alice";
                   PressLogin "alice@example.com" "Alice";
                   PressLogout; PressLogin "bob@example.com" "Bob"])).
  reflexivity.
Defined.

(** ** The event detail screen *)

Lemma isJoined_attending s eid email :
  email ≠ "" →
  isJoined email (attendees_of s eid) = true ↔ attending s eid email.
Proof.
  intros Hm. unfold isJoined. rewrite (falsy_false _ Hm).
  apply some_attendee_email.
Qed.

Lemma isJoined_not_attending s eid email :
  ¬ attending s eid email → isJoined email (attendees_of s eid) = false.
Proof.
  intros Ha. unfold isJoined. destruct (falsy email); [done|].
  by apply some_attendee_email_false.
Qed.

(** What [joinEvent] gives on an existing event with non-empty inputs. *)
Lemma joinEvent_returns (cuid : list string → string) w eid email r :
  eid ≠ "" → email ≠ "" → find_row eid (eventTable (db w)) = Some r →
  ∃ w', joinEvent cuid eid email w
        = (Returned (include_attendees (db w') r), w')
        ∧ attending (db w') eid email
        ∧ eventTable (db w') = eventTable (db w)
        ∧ is_Some (find_user_by_email email (userTable (db w')))
        ∧ (NoDup (user_email <$> userTable (db w)) →
           NoDup (user_email <$> userTable (db w'))).
Proof.
  intros He Hm Hr.
  destruct (find_user_by_email email (userTable (db w))) as [u|] eqn:Hu.
  - destruct (find_user_by_email_Some _ _ _ Hu) as [Hin Hmail].
    destruct (decide (attending (db w) eid email)) as [Ha|Ha].
    + exists w. rewrite (joinEvent_member cuid eid email w r He Hm Hr Ha).
      rewrite Hu. by repeat split.
    + exists (joinEvent cuid eid email w).2.
      rewrite (joinEvent_known_user cuid eid email w r u He Hm Hr Hu Ha).
      cbn [snd]. split; [reflexivity|]. cbn [db connect userTable eventTable].
      rewrite Hu. repeat split; try done.
      apply Exists_exists. exists u. split; [|done].
      by apply attendees_of_connect_same.
  - exists (joinEvent cuid eid email w).2.
    rewrite (joinEvent_new_user cuid eid email w r He Hm Hr Hu).
    cbn [snd]. split; [reflexivity|].
    cbn [db connect insert_user userTable eventTable].
    set (u := {| user_id := cuid (user_id <$> userTable (db w));
                 user_name := first_part (split "@" email);
                 user_email := email |}).
    repeat split; try done.
    + apply Exists_exists. exists u. split; [|done].
      apply elem_of_attendees_of. simpl. set_solver.
    + rewrite (find_user_by_email_app_new email _ u Hu eq_refl). by eexists.
    + intros Hnd. rewrite fmap_app. apply NoDup_app. split; [done|]. split.
      * intros x (v & -> & Hv)%list_elem_of_fmap
          [Heq|[]%elem_of_nil]%elem_of_cons.
        rewrite find_user_by_email_None in Hu. by destruct (Hu v Hv).
      * apply NoDup_singleton.
Qed.

(** What [leaveEvent] gives when the event and the user exist. *)
Lemma leaveEvent_returns w eid email r :
  eid ≠ "" → email ≠ "" → find_row eid (eventTable (db w)) = Some r →
  is_Some (find_user_by_email email (userTable (db w))) →
  NoDup (user_email <$> userTable (db w)) →
  ∃ w', leaveEvent eid email w
        = (Returned (include_attendees (db w') r), w')
        ∧ ¬ attending (db w') eid email.
Proof.
  intros He Hm Hr [u Hu] Hnd.
  destruct (decide (attending (db w) eid email)) as [Ha|Ha].
  - exists (leaveEvent eid email w).2.
    rewrite (leaveEvent_member eid email w r u He Hm Hr Hu Ha).
    cbn [snd]. split; [reflexivity|]. cbn [db].
    by apply not_attending_after_disconnect.
  - exists w. by rewrite (leaveEvent_not_member eid email w r u He Hm Hr Hu Ha).
Qed.

(** Join and Leave on the detail screen.  Let the event on display
    exist in the database, the user's address be non-empty and the
    addresses of the user table be unique.  Pressing Join raises no
    alert and leaves the screen showing the attendee list that the
    database now holds, with the user on it, so the button turns into
    Leave; pressing Leave next again raises no alert and shows the
    list of the database, without the user, so the button turns back
    into Join.  Id, name, location and start time on display never
    change.  When the address is empty, pressing either button only
    raises the alert "User email not found" and sends nothing to the
    server. *)
Theorem detail_screen_join_leave (cuid : list string → string)
    w scr email r :
  event_id (shown scr) ≠ "" → email ≠ "" →
  find_row (event_id (shown scr)) (eventTable (db w)) = Some r →
  NoDup (user_email <$> userTable (db w)) →
  let eid := event_id (shown scr) in
  let joined := handleJoinEvent cuid email scr w in
  let left := handleLeaveEvent email joined.1 joined.2 in
  (isJoined email (event_attendees (shown joined.1)) = true
   ∧ event_attendees (shown joined.1) = attendees_of (db joined.2) eid
   ∧ alerts joined.1 = alerts scr)
  ∧ (isJoined email (event_attendees (shown left.1)) = false
     ∧ event_attendees (shown left.1) = attendees_of (db left.2) eid
     ∧ alerts left.1 = alerts scr)
  ∧ (event_id (shown left.1), event_name (shown left.1),
     event_location (shown left.1), event_startTime (shown left.1))
    = (event_id (shown scr), event_name (shown scr),
       event_location (shown scr), event_startTime (shown scr))
  ∧ (∀ scr' w',
       handleJoinEvent cuid "" scr' w'
       = (alert "Error" "User email not found" scr', w')
       ∧ handleLeaveEvent "" scr' w'
         = (alert "Error" "User email not found" scr', w')).
Proof.
  intros He Hm Hr Hnd. cbv zeta.
  destruct (find_row_Some _ _ _ Hr) as [_ Hid].
  destruct (joinEvent_returns cuid w _ email r He Hm Hr)
    as (w1 & Hjoin & Ha1 & Hev1 & Hu1 & Hnd1).
  assert (handleJoinEvent cuid email scr w
          = (set_attendees (attendees_of (db w1) (event_id (shown scr))) scr,
             w1)) as Hpress1.
  { unfold handleJoinEvent, mutate. rewrite (falsy_false _ Hm), Hjoin.
    unfold include_attendees; cbn [event_attendees]. by rewrite Hid. }
  assert (find_row (event_id (shown scr)) (eventTable (db w1)) = Some r)
    as Hr1 by (by rewrite Hev1).
  destruct (leaveEvent_returns w1 _ email r He Hm Hr1 Hu1 (Hnd1 Hnd))
    as (w2 & Hleave & Ha2).
  assert (∀ scr1, event_id (shown scr1) = event_id (shown scr) →
            handleLeaveEvent email scr1 w1
            = (set_attendees (attendees_of (db w2) (event_id (shown scr)))
                 scr1, w2)) as Hpress2.
  { intros scr1 Hsame. unfold handleLeaveEvent, mutate.
    rewrite (falsy_false _ Hm), Hsame, Hleave.
    unfold include_attendees; cbn [event_attendees]. by rewrite Hid. }
  rewrite Hpress1. cbn [fst snd]. rewrite Hpress2 by done.
  cbn [fst snd set_attendees shown alerts event_id event_name event_location
       event_startTime event_attendees].
  split; [|split; [|split]].
  - split; [|done]. by apply isJoined_attending.
  - split; [|done]. by apply isJoined_not_attending.
  - done.
  - intros scr' w'. by unfold handleJoinEvent, handleLeaveEvent.
Qed.

Lemma detail_screen_join_leave_witness :
  let scr := mkDetailScreen (include_attendees seeded foodFair) [] in
  let joined := handleJoinEvent longer_cuid "a@x.com" scr seeded_world in
  let left := handleLeaveEvent "a@x.com" joined.1 joined.2 in
  isJoined "a@x.com" (event_attendees (shown joined.1)) = true
  ∧ isJoined "a@x.com" (event_attendees (shown left.1)) = false
  ∧ alerts left.1 = [].
Proof.
  cbv zeta.
  destruct (detail_screen_join_leave longer_cuid seeded_world
              (mkDetailScreen (include_attendees seeded foodFair) [])
              "a@x.com" foodFair
              ltac:(discriminate) ltac:(discriminate) eq_refl
              ltac:(apply (bool_decide_unpack _); by vm_compute))
    as ((Hjoined & _) & (Hleft & _ & Halerts) & _).
  split; [exact Hjoined|]. split; [exact Hleft|exact Halerts].
Defined.

(** The [eventUpdated] listener of the detail screen never takes an
    update.  The objects the server emits, with [userJoined],
    [userLeft] or [eventUpdated], have the properties [eventId],
    [attendees] and possibly [user], but no [id]; the listener compares
    [updatedEvent.id] with the id of the event on display, so for
    every payload the server can send and every screen it does not
    call [setEvent]: the display changes only through the answers to
    the screen's own mutations. *)
Theorem detail_screen_ignores_eventUpdated (p : Payload) scr :
  get_property "id" (payload_object p) = JSUndefined
  ∧ on_eventUpdated (payload_object p) scr = None.
Proof. unfold on_eventUpdated. by destruct p. Qed.
